(** * Isometric-Grid: the coordinate transform, the scene state and its
      history, the drag resolver and the persistence gateway

    A shallow embedding of

    - [utils/isometricUtils.js] (in [src/unnamed/part_000], from line 398:
      [screenToIsometric], [isometricToScreen], [snapToGrid],
      [calculateZIndex], [calculateGridDimensions]),
    - [src/hooks/useDragDrop.js] ([calculateGridPosition], [handleDragEnd]),
    - [src/context/SceneContext.jsx] (the [SceneProvider] state cells and its
      memoised callbacks, [createNewScene], [saveScene], [loadScene]),
    - [utils/sceneUtils.js] (in [src/unnamed/part_001]: serialisation,
      validation, deserialisation, named slots in [localStorage]),
    - [src/components/canvas/IsometricCanvas.jsx] (the mouse and wheel
      handlers), [src/components/controls/Toolbar.jsx] (the zoom buttons) and
      [ElementControls] (in [src/unnamed/part_006]: [handleRotate]).

    Conventions.

    - A JavaScript number is an IEEE-754 binary64 value.  The arithmetic the
      source performs is written once, over an interface [JsNumber], and read
      at two instances: [float] (Rocq's primitive binary64 numbers, the
      arithmetic the browser performs) and [Q] (the same formulas without
      rounding, overflow or NaN; it agrees with the former wherever every
      intermediate result is exactly representable and no divisor is zero).
    - A React state cell is a field of the record [Scene]; a callback is a
      function of the render scope it closes over and of the live state its
      functional updaters receive.
    - [Date.now()] and the outcome of a [localStorage] write are inputs.
    - A JSON text is represented by a value of which it is the text; parsing
      it gives the JSON image of that value. *)

From Stdlib Require Import ZArith QArith Qround Qminmax Lia Lqa List Bool.
From Stdlib Require Import PrimFloat FloatClass FloatOps SpecFloat FloatAxioms.
From Stdlib Require Import Ascii String DecimalString DecimalZ.
From stdpp Require Import base option list strings gmap.

Set Default Proof Using "Type".

(** ** 1. JavaScript numbers *)

(** The operations on numbers that the modelled functions use. *)
Class JsNumber (num : Type) := {
  num_of_Z : Z -> num;
  num_add : num -> num -> num;
  num_sub : num -> num -> num;
  num_mul : num -> num -> num;
  num_div : num -> num -> num;
  Math_floor : num -> num;
  Math_round : num -> num;
  Math_max : num -> num -> num;
  Math_min : num -> num -> num
}.

Declare Scope js_scope.
Delimit Scope js_scope with js.
Infix "+" := num_add : js_scope.
Infix "-" := num_sub : js_scope.
Infix "*" := num_mul : js_scope.
Infix "/" := num_div : js_scope.

(** *** Exact arithmetic *)

Module Exact.

(** [Math.round] rounds to the nearest integer, ties towards +infinity. *)
Definition round (q : Q) : Q := inject_Z (Qfloor (q + (1 # 2))).

Definition floor (q : Q) : Q := inject_Z (Qfloor q).

#[global] Instance exact_number : JsNumber Q := {|
  num_of_Z := inject_Z;
  num_add := Qplus;
  num_sub := Qminus;
  num_mul := Qmult;
  num_div := Qdiv;
  Math_floor := floor;
  Math_round := round;
  Math_max := Qmax;
  Math_min := Qmin
|}.

End Exact.

(** *** IEEE-754 binary64 *)

Module IEEE.

Definition of_Z (z : Z) : float := SF2Prim (binary_normalize prec emax z 0 false).

(** The integer [m] carrying the sign [s]. *)
Definition signed (s : bool) (m : positive) : Z := if s then Z.neg m else Z.pos m.

(** [Math.floor]: a finite value [m * 2^e] with [e < 0] is floored by an
    arithmetic shift; zeros, infinities, NaN and integral values are returned
    unchanged. *)
Definition SFfloor (v : spec_float) : spec_float :=
  match v with
  | S754_finite s m e =>
      if (0 <=? e)%Z then v
      else binary_normalize prec emax (Z.shiftr (signed s m) (- e)) 0 false
  | _ => v
  end.

Definition floor (v : float) : float := SF2Prim (SFfloor (Prim2SF v)).

(** [Math.round]: nearest integer, ties towards +infinity; a result of zero
    keeps the sign of the argument. *)
Definition SFround (v : spec_float) : spec_float :=
  match v with
  | S754_finite s m e =>
      if (0 <=? e)%Z then v
      else
        let q := Z.shiftr (signed s m + Z.shiftl 1 (- e - 1)) (- e) in
        if (q =? 0)%Z then S754_zero s else binary_normalize prec emax q 0 false
  | _ => v
  end.

Definition round (v : float) : float := SF2Prim (SFround (Prim2SF v)).

Definition is_neg_zero (v : float) : bool :=
  match PrimFloat.classify v with NZero => true | _ => false end.

(** [Math.max] and [Math.min] return NaN when an argument is NaN and order
    -0 below +0. *)
Definition max (a b : float) : float :=
  if PrimFloat.is_nan a || PrimFloat.is_nan b then nan
  else if PrimFloat.ltb a b then b
  else if PrimFloat.ltb b a then a
  else if is_neg_zero a then b else a.

Definition min (a b : float) : float :=
  if PrimFloat.is_nan a || PrimFloat.is_nan b then nan
  else if PrimFloat.ltb a b then a
  else if PrimFloat.ltb b a then b
  else if is_neg_zero a then a else b.

#[global] Instance ieee_number : JsNumber float := {|
  num_of_Z := of_Z;
  num_add := PrimFloat.add;
  num_sub := PrimFloat.sub;
  num_mul := PrimFloat.mul;
  num_div := PrimFloat.div;
  Math_floor := floor;
  Math_round := round;
  Math_max := max;
  Math_min := min
|}.

End IEEE.

(** ** 2. Coordinate transform ([isometricUtils.js], part_000 lines 420-543) *)

(** The object [{ x, y }]. *)
Module Pt.
Record t (num : Type) := mk { x : num; y : num }.
Arguments mk {num} _ _.
Arguments x {num} _.
Arguments y {num} _.
End Pt.

(** The object [{ width, height }]. *)
Module Size.
Record t (num : Type) := mk { width : num; height : num }.
Arguments mk {num} _ _.
Arguments width {num} _.
Arguments height {num} _.
End Size.

Section Transform.
Context {num : Type} `{JsNumber num}.
Local Open Scope js_scope.

(** The literals [0], [1] and [2]. *)
Definition zero : num := num_of_Z 0.
Definition one : num := num_of_Z 1.
Definition two : num := num_of_Z 2.

Definition screenToIsometric (screenX screenY tileWidth tileHeight : num) : Pt.t num :=
  let isoX :=
    Math_floor ((screenX / (tileWidth / two) + screenY / (tileHeight / two)) / two) in
  let isoY :=
    Math_floor ((screenY / (tileHeight / two) - screenX / (tileWidth / two)) / two) in
  Pt.mk isoX isoY.

Definition isometricToScreen (isoX isoY tileWidth tileHeight : num) : Pt.t num :=
  let screenX := (isoX - isoY) * (tileWidth / two) in
  let screenY := (isoX + isoY) * (tileHeight / two) in
  Pt.mk screenX screenY.

Definition calculateGridDimensions (gridWidth gridHeight tileWidth tileHeight : num)
  : Size.t num :=
  let width := (gridWidth + gridHeight) * (tileWidth / two) in
  let height := (gridWidth + gridHeight) * (tileHeight / two) in
  Size.mk width height.

Definition snapToGrid (x y tileWidth tileHeight : num) : Pt.t num :=
  let iso := screenToIsometric x y tileWidth tileHeight in
  isometricToScreen (Pt.x iso) (Pt.y iso) tileWidth tileHeight.

(** ** 3. Drag resolver ([useDragDrop.js]) *)

(** Lines 40-59.  [calculateGridPosition] closes over [gridSize], [tileSize], [offset] and
    [zoom]; its dependency list names all four, so they are the live values. *)
Definition calculateGridPosition
    (gridSize tileSize : Size.t num) (offset : Pt.t num) (zoom : num)
    (x y : num) : Pt.t num :=
  let adjustedX := (x - Pt.x offset) / zoom in
  let adjustedY := (y - Pt.y offset) / zoom in
  let g := screenToIsometric adjustedX adjustedY
             (Size.width tileSize) (Size.height tileSize) in
  let boundedX :=
    Math_max zero (Math_min (Size.width gridSize - one) (Math_round (Pt.x g))) in
  let boundedY :=
    Math_max zero (Math_min (Size.height gridSize - one) (Math_round (Pt.y g))) in
  Pt.mk boundedX boundedY.

End Transform.

Section Layering.
Context {num : Type} `{JsNumber num}.
Local Open Scope js_scope.

(** part_000, lines 519-523.  The z-index of the element standing on the cell
    [(x, y)]. *)
Definition calculateZIndex (x y : num) : num := x + y.

End Layering.

(** ** 4. Arrays and strings *)

(** [array[i]]: [undefined] (here [None]) outside the array. *)
Definition js_index {A : Type} (l : list A) (i : Z) : option A :=
  if (i <? 0)%Z then None else l !! Z.to_nat i.

(** [array.slice(0, e)]: a negative [e] counts from the end of the array. *)
Definition js_slice0 {A : Type} (l : list A) (e : Z) : list A :=
  let len := Z.of_nat (length l) in
  let k := if (e <? 0)%Z then Z.max (len + e) 0 else Z.min e len in
  take (Z.to_nat k) l.

(** [n.toString()] for an integer [n]: its decimal digits. *)
Definition toString (n : Z) : string := NilEmpty.string_of_int (Z.to_int n).

(** [name.replace(/\.[^/.]+$/, '')]: the suffix from the first dot that is
    followed, up to the end, by one or more characters other than [/] and [.]. *)
Fixpoint is_extension (s : string) : bool :=
  match s with
  | EmptyString => false
  | String c EmptyString => negb (Ascii.eqb c "/" || Ascii.eqb c ".")
  | String c rest => negb (Ascii.eqb c "/" || Ascii.eqb c ".") && is_extension rest
  end.

Fixpoint strip_extension (s : string) : string :=
  match s with
  | EmptyString => EmptyString
  | String c rest =>
      if Ascii.eqb c "." && is_extension rest then EmptyString
      else String c (strip_extension rest)
  end.

(** [stripped || 'Imported Scene']: the empty string is falsy. *)
Definition imported_name (fileName : string) : string :=
  match strip_extension fileName with
  | EmptyString => "Imported Scene"
  | stripped => stripped
  end.

(** A character that the class [[^/.]] accepts. *)
Definition plain_char (c : ascii) : bool := negb (Ascii.eqb c "/" || Ascii.eqb c ".").

(** ** 5. Scene state and history ([SceneContext.jsx]) *)

(** The state cells of [SceneProvider] that the modelled callbacks read or
    write.  [E] is the type of an element, [G] the type of a grid or tile size.
    [elements] is [None] when the cell holds [undefined], which [undo] and
    [redo] store when they read the history outside its bounds;
    [selectedElementId] is [None] for [null]. *)
Record Scene (E G : Type) := mkScene {
  gridSize : G;
  tileSize : G;
  elements : option (list E);
  history : list (list E);
  historyIndex : Z;
  selectedElementId : option string;
  sceneName : string;
  sceneModified : bool
}.
Arguments mkScene {E G} _ _ _ _ _ _ _ _.
Arguments gridSize {E G} _.
Arguments tileSize {E G} _.
Arguments elements {E G} _.
Arguments history {E G} _.
Arguments historyIndex {E G} _.
Arguments selectedElementId {E G} _.
Arguments sceneName {E G} _.
Arguments sceneModified {E G} _.

(** What [deserializeScene] returns and [loadScene] and [importScene] consume.
    A field is [None] when it is [undefined]. *)
Record SceneState (E G : Type) := mkSceneState {
  ss_elements : option (list E);
  ss_gridSize : option G;
  ss_tileSize : option G
}.
Arguments mkSceneState {E G} _ _ _.
Arguments ss_elements {E G} _.
Arguments ss_gridSize {E G} _.
Arguments ss_tileSize {E G} _.

Section History.
Context {E G : Type}.
Implicit Types (r s : Scene E G).

(** The state setters. *)
Definition setGridSize (v : G) s : Scene E G :=
  mkScene v (tileSize s) (elements s) (history s) (historyIndex s)
    (selectedElementId s) (sceneName s) (sceneModified s).
Definition setTileSize (v : G) s : Scene E G :=
  mkScene (gridSize s) v (elements s) (history s) (historyIndex s)
    (selectedElementId s) (sceneName s) (sceneModified s).
Definition setElements (v : option (list E)) s : Scene E G :=
  mkScene (gridSize s) (tileSize s) v (history s) (historyIndex s)
    (selectedElementId s) (sceneName s) (sceneModified s).
Definition setHistory (v : list (list E)) s : Scene E G :=
  mkScene (gridSize s) (tileSize s) (elements s) v (historyIndex s)
    (selectedElementId s) (sceneName s) (sceneModified s).
Definition setHistoryIndex (v : Z) s : Scene E G :=
  mkScene (gridSize s) (tileSize s) (elements s) (history s) v
    (selectedElementId s) (sceneName s) (sceneModified s).
Definition setSelectedElementId (v : option string) s : Scene E G :=
  mkScene (gridSize s) (tileSize s) (elements s) (history s) (historyIndex s)
    v (sceneName s) (sceneModified s).
Definition setSceneName (v : string) s : Scene E G :=
  mkScene (gridSize s) (tileSize s) (elements s) (history s) (historyIndex s)
    (selectedElementId s) v (sceneModified s).
Definition setSceneModified (v : bool) s : Scene E G :=
  mkScene (gridSize s) (tileSize s) (elements s) (history s) (historyIndex s)
    (selectedElementId s) (sceneName s) v.

(** In every callback below, [r] is the render scope the callback closes over
    (the values the state cells had in the render that created it) and [s] is
    the live state, which functional updaters ([setX(prev => ...)]) receive. *)

(** Lines 203-210.  [addToHistory] reads [historyIndex] from its scope, the
    history and the cursor it updates from the live state. *)
Definition addToHistory r (newElements : list E) s : Scene E G :=
  let s1 := setHistory (js_slice0 (history s) (historyIndex r + 1) ++ [newElements]) s in
  setHistoryIndex (historyIndex s1 + 1) s1.

(** Lines 217-223. *)
Definition undo r s : Scene E G :=
  if (historyIndex r >? 0)%Z then
    let s1 := setHistoryIndex (historyIndex s - 1) s in
    let s2 := setElements (js_index (history r) (historyIndex r - 1)) s1 in
    setSceneModified true s2
  else s.

(** Lines 230-236. *)
Definition redo r s : Scene E G :=
  if (historyIndex r <? Z.of_nat (length (history r)) - 1)%Z then
    let s1 := setHistoryIndex (historyIndex s + 1) s in
    let s2 := setElements (js_index (history r) (historyIndex r + 1)) s1 in
    setSceneModified true s2
  else s.

(** Lines 147-155. *)
Definition clearScene r s : Scene E G :=
  let s1 := addToHistory r [] s in
  let s2 := setElements (Some []) s1 in
  let s3 := setSelectedElementId None s2 in
  setSceneModified true s3.

(** [loadedElements || []]. *)
Definition or_empty (l : option (list E)) : list E := default [] l.

(** Lines 372-395.  [loadScene(name)]; [loaded] is what [loadSceneFromLocalStorage(name)]
    returned ([None] for [null]). *)
Definition loadScene (loaded : option (SceneState E G)) (name : string) s
  : bool * Scene E G :=
  match loaded with
  | Some sceneState =>
      let loadedElements := ss_elements sceneState in
      let s1 := setElements (Some (or_empty loadedElements)) s in
      let s2 := match ss_gridSize sceneState with
                | Some loadedGridSize => setGridSize loadedGridSize s1
                | None => s1
                end in
      let s3 := match ss_tileSize sceneState with
                | Some loadedTileSize => setTileSize loadedTileSize s2
                | None => s2
                end in
      let s4 := setHistory [or_empty loadedElements] s3 in
      let s5 := setHistoryIndex 0 s4 in
      let s6 := setSceneName name s5 in
      (true, setSceneModified false s6)
  | None => (false, s)
  end.

(** Lines 453-480.  [importScene(file)], from the point where
    [await importSceneFromJSON(file)] settles; [imported] is [None] when the
    promise was rejected, and the name given to the scene is
    [file.name.replace(/\.[^/.]+$/, '') || 'Imported Scene']. *)
Definition importScene (imported : option (SceneState E G)) (fileName : string) s
  : bool * Scene E G :=
  match imported with
  | Some sceneState =>
      let importedElements := ss_elements sceneState in
      let s1 := setElements (Some (or_empty importedElements)) s in
      let s2 := match ss_gridSize sceneState with
                | Some importedGridSize => setGridSize importedGridSize s1
                | None => s1
                end in
      let s3 := match ss_tileSize sceneState with
                | Some importedTileSize => setTileSize importedTileSize s2
                | None => s2
                end in
      let s4 := setHistory [or_empty importedElements] s3 in
      let s5 := setHistoryIndex 0 s4 in
      let s6 := setSceneName (imported_name fileName) s5 in
      (true, setSceneModified true s6)
  | None => (false, s)
  end.

(** What [addElement], [updateElement], [removeElement] and
    [duplicateElement] do to the elements and the history once the new
    collection [newElements] is computed, for a callback whose scope is the
    current render ([r = s]): [addToHistory(newElements)], [sceneModified],
    and [newElements] as the live collection. *)
Definition record (newElements : list E) s : Scene E G :=
  let s1 := addToHistory s newElements s in
  let s2 := setSceneModified true s1 in
  setElements (Some newElements) s2.

(** The history is [h], the cursor is at its entry [i], and that entry is the
    live collection. *)
Definition at_entry (h : list (list E)) (i : nat) s : Prop :=
  history s = h /\ historyIndex s = Z.of_nat i /\
  elements s = h !! i /\ (i < length h)%nat.

(** Lines 486-491.  The effect that initialises the history. *)
Definition history_init_effect s : Scene E G :=
  if (length (history s) =? 0)%nat then setHistoryIndex 0 (setHistory [[]] s) else s.

End History.

(** ** 6. Elements and the callbacks that change them *)

(** A scene element [{ id, type, position, rotation, scale }]. *)
Module Element.
Record t (num : Type) := mk {
  id : string;
  type : string;
  position : Pt.t num;
  rotation : num;
  scale : num
}.
Arguments mk {num} _ _ _ _ _.
Arguments id {num} _.
Arguments type {num} _.
Arguments position {num} _.
Arguments rotation {num} _.
Arguments scale {num} _.
End Element.

(** The object passed to [addElement]: an element that may come without an
    [id] (the drag resolver passes none). *)
Record NewElement (num : Type) := mkNewElement {
  new_id : option string;
  new_type : string;
  new_position : Pt.t num;
  new_rotation : num;
  new_scale : num
}.
Arguments mkNewElement {num} _ _ _ _ _.
Arguments new_id {num} _.
Arguments new_type {num} _.
Arguments new_position {num} _.
Arguments new_rotation {num} _.
Arguments new_scale {num} _.

(** The partial object passed to [updateElement]. *)
Record Updates (num : Type) := mkUpdates {
  upd_id : option string;
  upd_type : option string;
  upd_position : option (Pt.t num);
  upd_rotation : option num;
  upd_scale : option num
}.
Arguments mkUpdates {num} _ _ _ _ _.
Arguments upd_id {num} _.
Arguments upd_type {num} _.
Arguments upd_position {num} _.
Arguments upd_rotation {num} _.
Arguments upd_scale {num} _.

(** The pan and zoom cells. *)
Record View (num : Type) := mkView { zoom : num; offset : Pt.t num }.
Arguments mkView {num} _ _.
Arguments zoom {num} _.
Arguments offset {num} _.

(** What the drag resolver reads of a dnd-kit drag-end event: whether there is
    a drop target ([over]), [active.id], [active.data?.current?.type],
    [active.data?.current?.id] and the pointer coordinates of
    [event.activatorEvent]. *)
Record DragEndEvent (num : Type) := mkDragEndEvent {
  over : bool;
  active_id : string;
  active_type : option string;
  active_element_id : option string;
  clientX : num;
  clientY : num
}.
Arguments mkDragEndEvent {num} _ _ _ _ _ _.
Arguments over {num} _.
Arguments active_id {num} _.
Arguments active_type {num} _.
Arguments active_element_id {num} _.
Arguments clientX {num} _.
Arguments clientY {num} _.

Section Mutators.
Context {num : Type} `{JsNumber num}.
Local Open Scope js_scope.

Abbreviation scene := (Scene (Element.t num) (Size.t num)).
Implicit Types (r s : scene).

(** [{ id: Date.now().toString(), ...element }]: an [id] of [element]
    replaces the generated one. *)
Definition create (now : Z) (element : NewElement num) : Element.t num :=
  Element.mk (default (toString now) (new_id element)) (new_type element)
    (new_position element) (new_rotation element) (new_scale element).

(** [{ ...element, ...updates }]. *)
Definition merge (element : Element.t num) (updates : Updates num) : Element.t num :=
  Element.mk
    (default (Element.id element) (upd_id updates))
    (default (Element.type element) (upd_type updates))
    (default (Element.position element) (upd_position updates))
    (default (Element.rotation element) (upd_rotation updates))
    (default (Element.scale element) (upd_scale updates)).

(** The callbacks return [None] when they throw: spreading [undefined] into an
    array and calling [map], [filter] or [find] on [undefined] raise a
    [TypeError]. *)

(** Lines 71-86; [now] is [Date.now()]. *)
Definition addElement r (now : Z) (element : NewElement num) s : option scene :=
  match elements s with
  | Some prevElements =>
      let newElements := prevElements ++ [create now element] in
      let s1 := addToHistory r newElements s in
      let s2 := setSceneModified true s1 in
      Some (setElements (Some newElements) s2)
  | None => None
  end.

(** Lines 97-111. *)
Definition updateElement r (id : string) (updates : Updates num) s : option scene :=
  match elements s with
  | Some prevElements =>
      let newElements :=
        map (fun element =>
               if String.eqb (Element.id element) id then merge element updates
               else element) prevElements in
      let s1 := addToHistory r newElements s in
      let s2 := setSceneModified true s1 in
      Some (setElements (Some newElements) s2)
  | None => None
  end.

(** Lines 122-139.  The test [selectedElementId === id] reads the scope. *)
Definition removeElement r (id : string) s : option scene :=
  match elements s with
  | Some prevElements =>
      let newElements :=
        List.filter (fun element => negb (String.eqb (Element.id element) id))
          prevElements in
      let s1 := addToHistory r newElements s in
      let s2 := setSceneModified true s1 in
      let s3 := setElements (Some newElements) s2 in
      Some (if bool_decide (selectedElementId r = Some id)
            then setSelectedElementId None s3 else s3)
  | None => None
  end.

(** Lines 165-193.  [elements.find] reads the scope; the updater appends to
    the live collection.  The function returns no value on either path. *)
Definition duplicateElement r (now : Z) (id : string) s : option scene :=
  match elements r with
  | Some elements_r =>
      match List.find (fun element => String.eqb (Element.id element) id) elements_r with
      | None => Some s
      | Some elementToDuplicate =>
          let newElement :=
            Element.mk (toString now) (Element.type elementToDuplicate)
              (Pt.mk (Pt.x (Element.position elementToDuplicate) + one)
                     (Pt.y (Element.position elementToDuplicate) + one))
              (Element.rotation elementToDuplicate)
              (Element.scale elementToDuplicate) in
          match elements s with
          | Some prevElements =>
              let newElements := prevElements ++ [newElement] in
              let s1 := addToHistory r newElements s in
              let s2 := setSceneModified true s1 in
              let s3 := setElements (Some newElements) s2 in
              Some (setSelectedElementId (Some (Element.id newElement)) s3)
          | None => None
          end
      end
  | None => None
  end.

(** Lines 70-105 of [useDragDrop.js].  [handleDragEnd(event)] is re-created
    with [calculateGridPosition], so [gridSize], [tileSize] and the view are
    the live ones; [addElement] and [updateElement] are the provider's
    memoised callbacks, whose scope is [r_mount] (see [Provider] below). *)
Definition handleDragEnd r_mount (view : View num) (now : Z)
    (event : DragEndEvent num) s : option scene :=
  if negb (over event) then Some s
  else if String.prefix "palette-" (active_id event) then
    match active_type event with
    | None | Some EmptyString => Some s
    | Some elementType =>
        let p := calculateGridPosition (gridSize s) (tileSize s)
                   (offset view) (zoom view) (clientX event) (clientY event) in
        addElement r_mount now
          (mkNewElement None elementType (Pt.mk (Pt.x p) (Pt.y p)) zero one) s
    end
  else
    match active_element_id event with
    | None | Some EmptyString => Some s
    | Some elementId =>
        let p := calculateGridPosition (gridSize s) (tileSize s)
                   (offset view) (zoom view) (clientX event) (clientY event) in
        updateElement r_mount elementId
          (mkUpdates None None (Some (Pt.mk (Pt.x p) (Pt.y p))) None None) s
    end.

(** *** The provider and its memoised callbacks

    [useCallback(f, deps)] returns the function created in the last render in
    which [deps] changed, and that function sees the state cells and the
    sibling callbacks of that render.

    - [addElement], [updateElement], [clearScene]: [deps = []].  They are the
      functions of the first render and call the first render's
      [addToHistory], whose [historyIndex] is the initial [-1].
    - [removeElement]: [deps = [selectedElementId]].  Its scope is the last
      render in which the selection changed.
    - [addToHistory], [undo], [redo]: their dependency lists name every cell
      they read, so their scope is the current render.
    - [duplicateElement]: [deps = [elements]], compared by array identity,
      which this model does not track; the callback is modelled above with its
      scope as an argument and is not an event of the provider.

    Every functional updater runs once per call, as in a production build. *)

(** The first render: the initial values of the state cells. *)
Definition mount_scope : scene :=
  mkScene (Size.mk (num_of_Z 10) (num_of_Z 10)) (Size.mk (num_of_Z 64) (num_of_Z 32))
    (Some []) [] (-1) None "Untitled Scene" false.

Record Provider := mkProvider {
  live : scene;
  removeElement_scope : scene
}.

(** After the first render the history effect runs and the provider renders
    again; the selection has not changed, so [removeElement] is still the one
    of the first render. *)
Definition mounted : Provider :=
  mkProvider (history_init_effect mount_scope) mount_scope.

Inductive Event :=
  | EvAddElement (now : Z) (element : NewElement num)
  | EvUpdateElement (id : string) (updates : Updates num)
  | EvRemoveElement (id : string)
  | EvClearScene
  | EvSelectElement (id : option string)
  | EvUndo
  | EvRedo
  | EvLoadScene (loaded : option (SceneState (Element.t num) (Size.t num))) (name : string)
  | EvDragEnd (view : View num) (now : Z) (event : DragEndEvent num).

(** The state after the handler of an event has run ([None]: it threw). *)
Definition dispatch (ev : Event) (p : Provider) : option scene :=
  let s := live p in
  match ev with
  | EvAddElement now element => addElement mount_scope now element s
  | EvUpdateElement id updates => updateElement mount_scope id updates s
  | EvRemoveElement id => removeElement (removeElement_scope p) id s
  | EvClearScene => Some (clearScene mount_scope s)
  | EvSelectElement id => Some (setSelectedElementId id s)
  | EvUndo => Some (undo s s)
  | EvRedo => Some (redo s s)
  | EvLoadScene loaded name => Some (snd (loadScene loaded name s))
  | EvDragEnd view now event => handleDragEnd mount_scope view now event s
  end.

(** The render that follows: [removeElement] is re-created when
    [selectedElementId] differs from the one of its scope. *)
Definition commit (p : Provider) (s' : scene) : Provider :=
  mkProvider (history_init_effect s')
    (if bool_decide (selectedElementId s' = selectedElementId (removeElement_scope p))
     then removeElement_scope p else s').

Definition step (ev : Event) (p : Provider) : option Provider :=
  match dispatch ev p with
  | Some s' => Some (commit p s')
  | None => None
  end.

Fixpoint run (evs : list Event) (p : Provider) : option Provider :=
  match evs with
  | [] => Some p
  | ev :: rest =>
      match step ev p with
      | Some p' => run rest p'
      | None => None
      end
  end.

End Mutators.

Section FirstRender.
Context {num : Type} `{JsNumber num}.
Implicit Types (r s : Scene (Element.t num) (Size.t num)).

(** Lines 331-337.  [createNewScene()] reads no cell itself; it calls
    [clearScene], which is the callback of the first render ([r_mount]), then
    names the scene, marks it unmodified and resets the view. *)
Definition createNewScene r_mount s : Scene (Element.t num) (Size.t num) * View num :=
  let s1 := clearScene r_mount s in
  let s2 := setSceneName "Untitled Scene" s1 in
  let s3 := setSceneModified false s2 in
  (s3, mkView one (Pt.mk zero zero)).

(** The events handled by a callback whose dependency list is empty. *)
Definition first_render_callback (ev : Event (num := num)) : bool :=
  match ev with
  | EvAddElement _ _ | EvUpdateElement _ _ | EvClearScene => true
  | _ => false
  end.

End FirstRender.

(** ** 7. Persistence ([sceneUtils.js]) *)

(** JavaScript values, as [JSON.parse] and object literals build them.  An
    object is the list of its properties; a property is read at its first
    occurrence. *)
#[local] Set Warnings "-register-all".
Inductive js :=
  | JUndefined
  | JNull
  | JBool (b : bool)
  | JNum (n : float)
  | JStr (s : string)
  | JArr (l : list js)
  | JObj (fields : list (string * js)).

Inductive exn :=
  | TypeError
  | Error (message : string)
  | QuotaExceededError.

(** [!v] is [negb (truthy v)]. *)
Definition truthy (v : js) : bool :=
  match v with
  | JUndefined | JNull => false
  | JBool b => b
  | JNum n => negb (PrimFloat.eqb n 0%float || PrimFloat.is_nan n)
  | JStr s => negb (String.eqb s "")
  | JArr _ | JObj _ => true
  end.

Definition Array_isArray (v : js) : bool :=
  match v with JArr _ => true | _ => false end.

Fixpoint lookup_field (k : string) (fields : list (string * js)) : js :=
  match fields with
  | [] => JUndefined
  | (k', v) :: rest => if String.eqb k' k then v else lookup_field k rest
  end.

(** [v?.k].  It is also [v.k] wherever [v] is known not to be [undefined] or
    [null].  The keys read by this module ([elements], [version], [metadata],
    [gridSize], [tileSize], [name]) are neither array indices nor inherited
    properties, so only objects have them. *)
Definition get (v : js) (k : string) : js :=
  match v with
  | JObj fields => lookup_field k fields
  | _ => JUndefined
  end.

(** [v.k], which throws when [v] is [undefined] or [null]. *)
Definition get_strict (v : js) (k : string) : exn + js :=
  match v with
  | JUndefined | JNull => inl TypeError
  | _ => inr (get v k)
  end.

Definition array_key (i : nat) : string := NilEmpty.string_of_uint (Nat.to_uint i).

Fixpoint chars_from (i : nat) (s : string) : list (string * js) :=
  match s with
  | EmptyString => []
  | String c rest => (array_key i, JStr (String c EmptyString)) :: chars_from (S i) rest
  end.

(** [({ ...v })]: the own enumerable properties of [v]. *)
Definition spread (v : js) : js :=
  match v with
  | JObj fields => JObj fields
  | JArr l => JObj (imap (fun i x => (array_key i, x)) l)
  | JStr s => JObj (chars_from 0 s)
  | _ => JObj []
  end.

(** part_001, lines 80-92. *)
Definition validateSceneData (sceneData : js) : bool :=
  if negb (truthy sceneData) then false
  else if negb (Array_isArray (get sceneData "elements")) then false
  else
    let version :=
      if truthy (get sceneData "version") then get sceneData "version"
      else JStr "1.0.0" in
    true.

(** The object [{ elements, gridSize, tileSize }] that [deserializeScene]
    returns and [serializeScene] takes. *)
Record SceneData := mkSceneData {
  sd_elements : list js;
  sd_gridSize : js;
  sd_tileSize : js
}.

(** Lines 52-68.  [elements.map] would throw on a value that is not an
    array; validation excludes it. *)
Definition deserializeScene (sceneData : js) : exn + SceneData :=
  if negb (validateSceneData sceneData) then inl (Error "Invalid scene data format")
  else
    let elements := get sceneData "elements" in
    let metadata := get sceneData "metadata" in
    match elements with
    | JArr l =>
        inr (mkSceneData (map spread l) (get metadata "gridSize") (get metadata "tileSize"))
    | _ => inl TypeError
    end.

(** Lines 24-40.  [serializeScene(sceneState)]; [timestamp] is [new Date().toISOString()]. *)
Definition serializeScene (sceneState : SceneData) (timestamp : string) : js :=
  JObj [("version", JStr "1.0.0");
        ("timestamp", JStr timestamp);
        ("metadata", JObj [("gridSize", sd_gridSize sceneState);
                           ("tileSize", sd_tileSize sceneState)]);
        ("elements", JArr (map spread (sd_elements sceneState)))].

(** What [loadScene] makes of a deserialised scene: [loadedElements || []] and
    [if (loadedGridSize)] test truthiness. *)
Definition loaded_state (d : SceneData) : SceneState js js :=
  mkSceneState (Some (sd_elements d))
    (if truthy (sd_gridSize d) then Some (sd_gridSize d) else None)
    (if truthy (sd_tileSize d) then Some (sd_tileSize d) else None).

(** *** JSON texts

    [JSON.parse(JSON.stringify(v))] for a number: NaN and the infinities are
    written as [null], and [-0] as [0]; every other number is read back as it
    was. *)
Definition JSON_number (n : float) : js :=
  match PrimFloat.classify n with
  | NaN | PInf | NInf => JNull
  | PZero | NZero => JNum 0%float
  | _ => JNum n
  end.

(** [JSON.parse(JSON.stringify(v))] for a value [v] that is an array, an
    object, or the element of an array: [undefined] in an array is written as
    [null]; a property whose value is [undefined] is left out; the properties
    keep their order.  (A property shadowed by an earlier one of the same key
    does not exist in the object and is not written.) *)
Fixpoint JSON_image (v : js) : js :=
  match v with
  | JUndefined => JNull
  | JNull => JNull
  | JBool b => JBool b
  | JNum n => JSON_number n
  | JStr s => JStr s
  | JArr l => JArr (map JSON_image l)
  | JObj fields =>
      JObj ((fix image_fields (fields : list (string * js)) (seen : list string)
               : list (string * js) :=
               match fields with
               | [] => []
               | (k, x) :: rest =>
                   if existsb (String.eqb k) seen then image_fields rest seen
                   else match x with
                        | JUndefined => image_fields rest (k :: seen)
                        | _ => (k, JSON_image x) :: image_fields rest (k :: seen)
                        end
               end) fields [])
  end.

(** The properties of the image of an object, [seen] being the keys already
    met. *)
Fixpoint image_fields (fields : list (string * js)) (seen : list string)
  : list (string * js) :=
  match fields with
  | [] => []
  | (k, x) :: rest =>
      if existsb (String.eqb k) seen then image_fields rest seen
      else match x with
           | JUndefined => image_fields rest (k :: seen)
           | _ => (k, JSON_image x) :: image_fields rest (k :: seen)
           end
  end.

(** What a property holding [x] reads as after the round trip. *)
Definition field_image (x : js) : js :=
  match x with JUndefined => JUndefined | _ => JSON_image x end.

(** [JSON.parse] of the text that a stored value stands for.  [undefined] has
    no JSON text: it stands for a text that does not parse, on which
    [JSON.parse] throws a [SyntaxError], whose message depends on the engine;
    every caller catches it. *)
Definition JSON_parse (v : js) : exn + js :=
  match v with
  | JUndefined => inl (Error "Unexpected token")
  | _ => inr (JSON_image v)
  end.

(** *** [localStorage]

    The store maps keys to texts.  A text is represented by a value [v] of
    which it is the JSON text; what [JSON.parse] makes of it is
    [JSON_image v], which is [v] itself when [v] was read from a text that
    [JSON.stringify] wrote.  A scene blob is read back as its image.  Where
    the scene index is updated it is handed on as stored: the entries this
    module writes hold strings and [null], which are their own images, so an
    index that is its own image when read is written back as one.  [setItem]
    may throw (quota exceeded, storage disabled):
    [write_outcomes] lists, for the coming calls of [setItem], whether each
    succeeds ([true]) or throws; calls past the end of the list succeed. *)
Record Storage := mkStorage {
  items : gmap string js;
  write_outcomes : list bool
}.

(** Computations that read and write the store and may throw. *)
Definition M (A : Type) : Type := Storage -> (exn + A) * Storage.

Definition ret {A : Type} (a : A) : M A := fun st => (inr a, st).

Definition throw {A : Type} (e : exn) : M A := fun st => (inl e, st).

Definition bind {A B : Type} (m : M A) (k : A -> M B) : M B :=
  fun st =>
    match m st with
    | (inr a, st') => k a st'
    | (inl e, st') => (inl e, st')
    end.

(** [try { body } catch (error) { handler }]. *)
Definition try_catch {A : Type} (body : M A) (handler : exn -> M A) : M A :=
  fun st =>
    match body st with
    | (inr a, st') => (inr a, st')
    | (inl e, st') => handler e st'
    end.

Definition lift {A : Type} (r : exn + A) : M A := fun st => (r, st).

Notation "'do' x <- m 'in' k" := (bind m (fun x => k))
  (at level 10, x name, m at level 100, k at level 200, only parsing).

Definition getItem (key : string) : M (option js) :=
  fun st => (inr (items st !! key), st).

Definition setItem (key : string) (value : js) : M unit :=
  fun st =>
    match write_outcomes st with
    | false :: rest => (inl QuotaExceededError, mkStorage (items st) rest)
    | _ => (inr tt, mkStorage (<[key := value]> (items st)) (tail (write_outcomes st)))
    end.

Definition removeItem (key : string) : M unit :=
  fun st => (inr tt, mkStorage (delete key (items st)) (write_outcomes st)).

Definition scenes_index_key : string := "isometric-scenes-index".

(** [`isometric-scene-${name}`]. *)
Definition scene_key (name : string) : string := "isometric-scene-" ++ name.

(** [item.name === name]. *)
Definition name_is (name : string) (item : js) : exn + bool :=
  match get_strict item "name" with
  | inr (JStr n) => inr (String.eqb n name)
  | inr _ => inr false
  | inl e => inl e
  end.

(** [scenesIndex.findIndex(item => item.name === name)]; [None] is [-1]. *)
Fixpoint findIndex_name (name : string) (scenesIndex : list js) : exn + option nat :=
  match scenesIndex with
  | [] => inr None
  | item :: rest =>
      match name_is name item with
      | inl e => inl e
      | inr true => inr (Some 0%nat)
      | inr false =>
          match findIndex_name name rest with
          | inl e => inl e
          | inr i => inr (S <$> i)
          end
      end
  end.

(** [scenesIndex.filter(item => item.name !== name)]. *)
Fixpoint filter_name (name : string) (scenesIndex : list js) : exn + list js :=
  match scenesIndex with
  | [] => inr []
  | item :: rest =>
      match name_is name item with
      | inl e => inl e
      | inr b =>
          match filter_name name rest with
          | inl e => inl e
          | inr rest' => inr (if b then rest' else item :: rest')
          end
      end
  end.

(** [JSON.parse(localStorage.getItem('isometric-scenes-index') || '[]')],
    followed by the array method the caller applies: a value that is not an
    array has no [findIndex] or [filter]. *)
Definition read_index : M (list js) :=
  do raw <- getItem scenes_index_key in
  match default (JArr []) raw with
  | JArr scenesIndex => ret scenesIndex
  | _ => throw TypeError
  end.

(** Lines 104-136.  [saveSceneToLocalStorage(name, sceneState)]; [t1] and
    [t2] are the two readings of [new Date().toISOString()]. *)
Definition saveSceneToLocalStorage (name : string) (sceneState : SceneData)
    (t1 t2 : string) : M bool :=
  try_catch
    (let serializedScene := serializeScene sceneState t1 in
     do scenesIndex <- read_index in
     do existingIndex <- lift (findIndex_name name scenesIndex) in
     let sceneInfo :=
       JObj [("name", JStr name); ("timestamp", JStr t2); ("preview", JNull)] in
     let scenesIndex' :=
       match existingIndex with
       | Some i => <[i := sceneInfo]> scenesIndex
       | None => scenesIndex ++ [sceneInfo]
       end in
     do _ <- setItem scenes_index_key (JArr scenesIndex') in
     do _ <- setItem (scene_key name) serializedScene in
     ret true)
    (fun error => ret false).

(** Lines 182-201. *)
Definition deleteScene (name : string) : M bool :=
  try_catch
    (do scenesIndex <- read_index in
     do updatedIndex <- lift (filter_name name scenesIndex) in
     do _ <- setItem scenes_index_key (JArr updatedIndex) in
     do _ <- removeItem (scene_key name) in
     ret true)
    (fun error => ret false).

(** Lines 146-156. *)
Definition loadSceneFromLocalStorage (name : string) : M (option SceneData) :=
  try_catch
    (do sceneData <- getItem (scene_key name) in
     match sceneData with
     | None => ret None
     | Some v =>
         do parsed <- lift (JSON_parse v) in
         do d <- lift (deserializeScene parsed) in
         ret (Some d)
     end)
    (fun error => ret None).

(** Lines 165-172.  [getSavedScenes()] returns what the index text parses to,
    an array or not. *)
Definition getSavedScenes : M js :=
  try_catch
    (do raw <- getItem scenes_index_key in lift (JSON_parse (default (JArr []) raw)))
    (fun error => ret (JArr [])).

(** *** The provider's save and load ([SceneContext.jsx])

    Here the elements and the grid and tile sizes of the scene are the
    JavaScript values the gateway stores. *)

(** Lines 347-362.  [saveScene(name)], [name] defaulting to [sceneName]; the
    dependency list names every cell read, so they are the live ones.  When
    [elements] is [undefined], [serializeScene] throws inside the [try] of
    [saveSceneToLocalStorage], before the store is touched. *)
Definition saveScene (name : option string) (t1 t2 : string) (s : Scene js js)
  : M (bool * Scene js js) :=
  let name := default (sceneName s) name in
  do success <-
    match elements s with
    | Some elements =>
        saveSceneToLocalStorage name (mkSceneData elements (gridSize s) (tileSize s)) t1 t2
    | None => ret false
    end in
  if success : bool then ret (true, setSceneModified false (setSceneName name s))
  else ret (false, s).

(** Lines 372-395, the whole of [loadScene(name)]: the scene is fetched from
    the store and handed to the state updates modelled by [loadScene]. *)
Definition loadScene_stored (name : string) (s : Scene js js) : M (bool * Scene js js) :=
  do sceneState <- loadSceneFromLocalStorage name in
  ret (loadScene (loaded_state <$> sceneState) name s).

(** ** 8. View controls, element controls and the canvas *)

Module Remainder.

(** [n % d] on numbers, the exact remainder of the truncating division: NaN
    when [n] is not finite or [d] is zero or NaN; [n] when [d] is infinite or
    [n] is zero; a zero result carries the sign of [n]. *)
Definition SFrem (n d : spec_float) : spec_float :=
  match n, d with
  | S754_nan, _ | _, S754_nan => S754_nan
  | S754_infinity _, _ => S754_nan
  | _, S754_infinity _ => n
  | _, S754_zero _ => S754_nan
  | S754_zero _, _ => n
  | S754_finite sn mn en, S754_finite _ md ed =>
      let e := Z.min en ed in
      let r := Z.rem (Z.pos mn * 2 ^ (en - e)) (Z.pos md * 2 ^ (ed - e)) in
      if (r =? 0)%Z then S754_zero sn
      else binary_normalize prec emax (if sn then - r else r) e false
  end.

Definition rem (n d : float) : float := SF2Prim (SFrem (Prim2SF n) (Prim2SF d)).

End Remainder.

(** The decimal literals [0.1], [0.05] and [0.5], as the doubles nearest to
    them. *)
Definition lit_0_1 : float := 0x1.999999999999ap-4.
Definition lit_0_05 : float := 0x1.999999999999ap-5.
Definition lit_0_5 : float := 0x1p-1.

(** What [handleWheel] reads of a wheel event, and the left and top of the
    canvas rectangle. *)
Record WheelEvent := mkWheelEvent {
  wheel_ctrlKey : bool;
  wheel_metaKey : bool;
  deltaY : float;
  wheel_clientX : float;
  wheel_clientY : float;
  rect_left : float;
  rect_top : float
}.

Section ViewControls.
Local Open Scope float_scope.

(** Toolbar.jsx, lines 58-64; the status bar (Sidebar.jsx, lines 168-174) and
    the shortcuts Ctrl/Cmd [+] and [-] (part_008, lines 61-71) compute the
    same. *)
Definition handleZoomIn (zoom : float) : float := IEEE.min 2 (zoom + lit_0_1).

Definition handleZoomOut (zoom : float) : float := IEEE.max lit_0_5 (zoom - lit_0_1).

(** IsometricCanvas.jsx, lines 143-166. *)
Definition handleWheel (view : View float) (e : WheelEvent) : View float :=
  if wheel_ctrlKey e || wheel_metaKey e then
    let delta := if PrimFloat.ltb 0 (deltaY e) then - lit_0_05 else lit_0_05 in
    let newZoom := IEEE.max lit_0_5 (IEEE.min 2 (zoom view + delta)) in
    let mouseX := wheel_clientX e - rect_left e in
    let mouseY := wheel_clientY e - rect_top e in
    let newOffset :=
      Pt.mk (Pt.x (offset view) - ((mouseX / zoom view) * (newZoom - zoom view)))
            (Pt.y (offset view) - ((mouseY / zoom view) * (newZoom - zoom view))) in
    mkView newZoom newOffset
  else view.

(** [v || d] for a number [v]: zero and NaN are falsy. *)
Definition number_or (v d : float) : float :=
  if PrimFloat.eqb v 0 || PrimFloat.is_nan v then d else v.

(** part_006 (ElementControls), lines 55-56: the rotation that
    [handleRotate(degrees)] computes from the selected element's. *)
Definition newRotation (rotation degrees : float) : float :=
  let currentRotation := number_or rotation 0 in
  Remainder.rem (currentRotation + degrees) 360.

(** Lines 54-58.  [selectedElement] is the first element with the selected
    id; [updateElement] is the provider's callback of the first render. *)
Definition handleRotate (r_mount : Scene (Element.t float) (Size.t float))
    (selectedElement : Element.t float) (selectedElementId : string) (degrees : float)
    (s : Scene (Element.t float) (Size.t float))
  : option (Scene (Element.t float) (Size.t float)) :=
  updateElement r_mount selectedElementId
    (mkUpdates None None None
       (Some (newRotation (Element.rotation selectedElement) degrees)) None) s.

End ViewControls.

(** The pan cells of [IsometricCanvas]: [isDragging], [dragStart] and
    [startOffset]. *)
Record Pan (num : Type) := mkPan {
  isDragging : bool;
  dragStart : Pt.t num;
  startOffset : Pt.t num
}.
Arguments mkPan {num} _ _ _.
Arguments isDragging {num} _.
Arguments dragStart {num} _.
Arguments startOffset {num} _.

(** What the canvas reads of a mouse event: [button], the modifier keys, the
    pointer, and whether the target is the canvas or carries the class
    [canvas-background]. *)
Record MouseEvent (num : Type) := mkMouseEvent {
  button : Z;
  ctrlKey : bool;
  altKey : bool;
  shiftKey : bool;
  mouse_clientX : num;
  mouse_clientY : num;
  on_background : bool
}.
Arguments mkMouseEvent {num} _ _ _ _ _ _ _.
Arguments button {num} _.
Arguments ctrlKey {num} _.
Arguments altKey {num} _.
Arguments shiftKey {num} _.
Arguments mouse_clientX {num} _.
Arguments mouse_clientY {num} _.
Arguments on_background {num} _.

(** The cells the mouse handlers of the canvas write: its pan cells, and the
    provider's view, selection and cursor position on the grid. *)
Record Canvas (num : Type) := mkCanvas {
  canvas_pan : Pan num;
  canvas_view : View num;
  canvas_selection : option string;
  canvas_cursor : Pt.t num
}.
Arguments mkCanvas {num} _ _ _ _.
Arguments canvas_pan {num} _.
Arguments canvas_view {num} _.
Arguments canvas_selection {num} _.
Arguments canvas_cursor {num} _.

Section CanvasHandlers.
Context {num : Type} `{JsNumber num}.
Local Open Scope js_scope.

(** IsometricCanvas.jsx, lines 81-92. *)
Definition handleMouseDown (e : MouseEvent num) (c : Canvas num) : Canvas num :=
  if (button e =? 1)%Z || ctrlKey e || altKey e || shiftKey e then
    mkCanvas (mkPan true (Pt.mk (mouse_clientX e) (mouse_clientY e))
                (Pt.mk (Pt.x (offset (canvas_view c))) (Pt.y (offset (canvas_view c)))))
      (canvas_view c) (canvas_selection c) (canvas_cursor c)
  else if on_background e then
    mkCanvas (canvas_pan c) (canvas_view c) None (canvas_cursor c)
  else c.

(** Lines 100-127, once the canvas is mounted ([canvasRef.current] is set).
    The pixel position kept in [cursorPosition] is read nowhere and is left
    out. *)
Definition handleMouseMove (gridSize tileSize : Size.t num) (e : MouseEvent num)
    (c : Canvas num) : Canvas num :=
  let gridPos :=
    calculateGridPosition gridSize tileSize
      (offset (canvas_view c)) (zoom (canvas_view c))
      (mouse_clientX e) (mouse_clientY e) in
  if negb (isDragging (canvas_pan c)) then
    mkCanvas (canvas_pan c) (canvas_view c) (canvas_selection c) gridPos
  else
    let deltaX := mouse_clientX e - Pt.x (dragStart (canvas_pan c)) in
    let deltaY := mouse_clientY e - Pt.y (dragStart (canvas_pan c)) in
    mkCanvas (canvas_pan c)
      (mkView (zoom (canvas_view c))
         (Pt.mk (Pt.x (startOffset (canvas_pan c)) + deltaX)
                (Pt.y (startOffset (canvas_pan c)) + deltaY)))
      (canvas_selection c) gridPos.

(** Lines 133-135. *)
Definition handleMouseUp (c : Canvas num) : Canvas num :=
  mkCanvas (mkPan false (dragStart (canvas_pan c)) (startOffset (canvas_pan c)))
    (canvas_view c) (canvas_selection c) (canvas_cursor c).

End CanvasHandlers.

(** ** 9. Sample data *)

(** A tree at the cell (5, 5). *)
Definition tree (id : string) : Element.t float :=
  Element.mk id "tree" (Pt.mk 5%float 5%float) 0%float 1%float.

Definition new_tree : NewElement float :=
  mkNewElement None "tree" (Pt.mk 5%float 5%float) 0%float 1%float.

Definition no_updates : Updates float := mkUpdates None None None None None.

(** The provider's state once mounted: a 10 x 10 grid of 64 x 32 tiles, no
    elements. *)
Definition untitled : Scene (Element.t float) (Size.t float) := live mounted.

Definition unit_view : View float := mkView 1%float (Pt.mk 0%float 0%float).

(** A palette item dropped with the pointer at (1000, 1000). *)
Definition palette_drop : DragEndEvent float :=
  mkDragEndEvent true "palette-tree" (Some "tree") None 1000%float 1000%float.

(** The scene after a tree was added at clock reading 1000. *)
Definition one_tree : Scene (Element.t float) (Size.t float) :=
  default untitled (addElement mount_scope 1000 new_tree untitled).

(** An initialised scene whose elements are plain numbers. *)
Definition blank : Scene nat unit :=
  mkScene tt tt (Some []) [[]] 0%Z None "Untitled Scene" false.

(** A saved scene with the three trees [a], [b], [c]. *)
Definition three_trees : SceneState (Element.t float) (Size.t float) :=
  mkSceneState (Some [tree "a"; tree "b"; tree "c"]) None None.

(** Saved scene [three_trees] is loaded as "A"; [a] is selected and removed,
    [b] is selected and removed, [c] is selected, the last removal is undone
    and the selected [c] is removed. *)
Definition remove_after_undo : list (Event (num := float)) :=
  [EvLoadScene (Some three_trees) "A";
   EvSelectElement (Some "a"); EvRemoveElement "a";
   EvSelectElement (Some "b"); EvRemoveElement "b";
   EvSelectElement (Some "c"); EvUndo;
   EvRemoveElement "c"].

(** What a trace shows of the provider: the live elements, the history and the
    cursor. *)
Definition shown (p : option (Provider (num := float)))
  : option (option (list (Element.t float)) * list (list (Element.t float)) * Z) :=
  (fun p => (elements (live p), history (live p), historyIndex (live p))) <$> p.

(** An empty scene to save. *)
Definition empty_scene_data : SceneData := mkSceneData [] JUndefined JUndefined.

(** A tree at the cell (5, 5) and a size, as the gateway stores them. *)
Definition tree_js (id : string) : js :=
  JObj [("id", JStr id); ("type", JStr "tree");
        ("position", JObj [("x", JNum 5%float); ("y", JNum 5%float)]);
        ("rotation", JNum 0%float); ("scale", JNum 1%float)].

Definition size_js (w h : float) : js := JObj [("width", JNum w); ("height", JNum h)].

(** A scene of one tree on the default grid, not saved yet, and a later scene
    with a smaller grid and nothing on it. *)
Definition town : Scene js js :=
  mkScene (size_js 10 10) (size_js 64 32) (Some [tree_js "1000"])
    [[]; [tree_js "1000"]] 1 None "Untitled Scene" true.

Definition wasteland : Scene js js :=
  mkScene (size_js 5 5) (size_js 32 16) (Some []) [[]] 0 (Some "1000") "Untitled Scene" true.

(** A canvas at rest with the default view, and a press of the middle button
    at (100, 100). *)
Definition still_canvas : Canvas float :=
  mkCanvas (mkPan false (Pt.mk 0%float 0%float) (Pt.mk 0%float 0%float))
    unit_view None (Pt.mk 0%float 0%float).

Definition middle_press : MouseEvent float :=
  mkMouseEvent 1 false false false 100%float 100%float true.

(** A pointer position with no button or key held. *)
Definition pointer_at (x y : float) : MouseEvent float :=
  mkMouseEvent 0 false false false x y true.

(** ** 10. Predicates used in the statements *)

(** A grid position lies in [[0, gridWidth - 1] x [0, gridHeight - 1]], in
    exact arithmetic. *)
Definition in_bounds (gridSize : Size.t Q) (p : Pt.t Q) : Prop :=
  (0 <= Pt.x p /\ Pt.x p <= Size.width gridSize - 1)%Q /\
  (0 <= Pt.y p /\ Pt.y p <= Size.height gridSize - 1)%Q.

(** The same test on binary64 numbers, with the comparisons of the language
    (a comparison with NaN is false). *)
Definition in_bounds_float (gridSize : Size.t float) (p : Pt.t float) : bool :=
  (PrimFloat.leb 0 (Pt.x p) && PrimFloat.leb (Pt.x p) (Size.width gridSize - 1))%float &&
  (PrimFloat.leb 0 (Pt.y p) && PrimFloat.leb (Pt.y p) (Size.height gridSize - 1))%float.

(** A value is present when it is neither [undefined] nor [null]. *)
Definition present (v : js) : Prop := v <> JUndefined /\ v <> JNull.

(** The entries of the scene index, the names that have an entry and the
    names that have a blob. *)
Definition index_entries (st : Storage) : list js :=
  match items st !! scenes_index_key with
  | Some (JArr scenesIndex) => scenesIndex
  | _ => []
  end.

Definition has_entry (name : string) (st : Storage) : Prop :=
  exists item, item ∈ index_entries st /\ get item "name" = JStr name.

Definition has_blob (name : string) (st : Storage) : Prop :=
  is_Some (items st !! scene_key name).

(** The index and the blobs agree. *)
Definition in_sync (st : Storage) : Prop :=
  forall name, has_blob name st <-> has_entry name st.

(** On binary64 numbers, the cell [(gx, gy)] is projected and converted back
    to itself. *)
Definition round_trips (tw th : float) (gx gy : Z) : bool :=
  let s := isometricToScreen (IEEE.of_Z gx) (IEEE.of_Z gy) tw th in
  let g := screenToIsometric (Pt.x s) (Pt.y s) tw th in
  PrimFloat.eqb (Pt.x g) (IEEE.of_Z gx) && PrimFloat.eqb (Pt.y g) (IEEE.of_Z gy).

(** The cells of a [width] x [height] grid. *)
Definition cells (width height : nat) : list (Z * Z) :=
  x ← seqZ 0 (Z.of_nat width); y ← seqZ 0 (Z.of_nat height); [(x, y)].

(** The rotations that quarter turns reach from 0. *)
Definition quarter_turns : list float :=
  [0; 90; 180; 270; neg_zero; -90; -180; -270]%float.

(** Solves the goal that every member of a list of literals is one of the two
    buttons, 90 or -90. *)
Ltac quarter_turn_buttons :=
  repeat first [apply Forall_nil_2 | apply Forall_cons_2
               | left; reflexivity | right; reflexivity].

Section Sessions.
Context {num : Type} `{JsNumber num}.
Implicit Types (s : Scene (Element.t num) (Size.t num)) (p : Provider (num := num))
  (l : list (Element.t num)).

(** The history is not empty, the cursor is not negative, and [removeElement]
    sees the live selection. *)
Definition provider_inv p : Prop :=
  history (live p) <> [] /\ (0 <= historyIndex (live p))%Z /\
  selectedElementId (removeElement_scope p) = selectedElementId (live p).

(** The ids of a collection are pairwise distinct and are the decimal strings
    of clock readings not after [t]. *)
Definition clock_ids (t : Z) l : Prop :=
  NoDup (Element.id <$> l) /\
  Forall (fun i => exists n, (n <= t)%Z /\ i = toString n) (Element.id <$> l).

(** Along [evs] the clock readings increase strictly, starting after [t]; no
    added element and no update carries an id of its own, and a loaded scene
    holds ids of readings not after the current one. *)
Fixpoint ticking (t : Z) (evs : list (Event (num := num))) : Prop :=
  match evs with
  | [] => True
  | EvAddElement now element :: rest =>
      new_id element = None /\ (t < now)%Z /\ ticking now rest
  | EvDragEnd _ now _ :: rest => (t < now)%Z /\ ticking now rest
  | EvUpdateElement _ updates :: rest => upd_id updates = None /\ ticking t rest
  | EvLoadScene loaded _ :: rest =>
      (forall sceneState, loaded = Some sceneState ->
         clock_ids t (or_empty (ss_elements sceneState))) /\
      ticking t rest
  | _ :: rest => ticking t rest
  end.

(** The last clock reading after an event, and after a list of events. *)
Definition clock_tick (t : Z) (ev : Event (num := num)) : Z :=
  match ev with
  | EvAddElement now _ | EvDragEnd _ now _ => now
  | _ => t
  end.

Definition clock_after (t : Z) (evs : list (Event (num := num))) : Z :=
  foldl clock_tick t evs.

(** The live collection, when there is one, and every history entry have
    clock ids. *)
Definition ids_inv (t : Z) s : Prop :=
  (forall l, elements s = Some l -> clock_ids t l) /\ Forall (clock_ids t) (history s).

End Sessions.

(** * Properties *)

(** ** Coordinate transform *)

Section ExactTransform.
Local Open Scope Q_scope.

Lemma half_tile_nonzero (t : Q) : 0 < t -> ~ t / 2 == 0.
Proof.
  intros Ht Hz.
  assert (t == 0) by (rewrite <- (Qmult_div_r t 2), Hz by discriminate; ring).
  rewrite H in Ht. apply (Qlt_irrefl 0 Ht).
Qed.

Lemma projected_x_back (gx gy : Z) (tw th : Q) :
  0 < tw -> 0 < th ->
  ((inject_Z gx - inject_Z gy) * (tw / 2) / (tw / 2)
   + (inject_Z gx + inject_Z gy) * (th / 2) / (th / 2)) / 2 == inject_Z gx.
Proof.
  intros Hw Hh.
  rewrite !Qdiv_mult_l by (apply half_tile_nonzero; assumption).
  field.
Qed.

Lemma projected_y_back (gx gy : Z) (tw th : Q) :
  0 < tw -> 0 < th ->
  ((inject_Z gx + inject_Z gy) * (th / 2) / (th / 2)
   - (inject_Z gx - inject_Z gy) * (tw / 2) / (tw / 2)) / 2 == inject_Z gy.
Proof.
  intros Hw Hh.
  rewrite !Qdiv_mult_l by (apply half_tile_nonzero; assumption).
  field.
Qed.

Lemma floor_of_integer (q : Q) (z : Z) : q == inject_Z z -> Exact.floor q = inject_Z z.
Proof. intros Hq. unfold Exact.floor. rewrite Hq, Qfloor_Z. reflexivity. Qed.

Lemma round_trip_exact (gx gy : Z) (tw th : Q) :
  0 < tw -> 0 < th ->
  let s := isometricToScreen (inject_Z gx) (inject_Z gy) tw th in
  screenToIsometric (Pt.x s) (Pt.y s) tw th = Pt.mk (inject_Z gx) (inject_Z gy).
Proof.
  intros Hw Hh. cbn.
  unfold screenToIsometric, isometricToScreen, two. cbn.
  f_equal; apply floor_of_integer.
  - apply projected_x_back; assumption.
  - apply projected_y_back; assumption.
Qed.

End ExactTransform.




(** ** Drag resolver *)

Section ExactClamp.
Local Open Scope Q_scope.

Lemma clamp_in_range (hi v : Q) : 0 <= hi -> 0 <= Qmax 0 (Qmin hi v) <= hi.
Proof.
  intros Hhi. split.
  - apply Q.le_max_l.
  - apply Q.max_lub; [assumption | apply Q.le_min_l].
Qed.

(** Without rounding the clamp of [calculateGridPosition] keeps the result on
    the grid whatever the view, the cursor and the tile are, as soon as the
    grid has at least one cell each way. *)
Lemma calculateGridPosition_in_bounds
    (gridSize tileSize : Size.t Q) (offset : Pt.t Q) (zoom x y : Q) :
  1 <= Size.width gridSize -> 1 <= Size.height gridSize ->
  in_bounds gridSize (calculateGridPosition gridSize tileSize offset zoom x y).
Proof.
  intros Hw Hh. unfold in_bounds, calculateGridPosition, zero, one. cbn.
  split; apply clamp_in_range; lra.
Qed.

Lemma calculateGridPosition_in_bounds_witness :
  in_bounds (Size.mk 10 10)
    (calculateGridPosition (Size.mk 10 10) (Size.mk 64 32) (Pt.mk 5 7) (1 # 2) 200 150).
Proof.
  apply calculateGridPosition_in_bounds; cbn; lra.
Defined.

(** Snapping is idempotent in exact arithmetic, for positive tile
    dimensions. *)
Lemma snapToGrid_idempotent (x y tw th : Q) :
  0 < tw -> 0 < th ->
  let p := snapToGrid x y tw th in
  snapToGrid (Pt.x p) (Pt.y p) tw th = p.
Proof.
  intros Hw Hh. cbv zeta. unfold snapToGrid.
  set (a := Qfloor ((x / (tw / 2) + y / (th / 2)) / 2)).
  set (b := Qfloor ((y / (th / 2) - x / (tw / 2)) / 2)).
  change (screenToIsometric x y tw th) with (Pt.mk (inject_Z a) (inject_Z b)).
  cbn [Pt.x Pt.y].
  pose proof (round_trip_exact a b tw th Hw Hh) as Hrt. cbv zeta in Hrt.
  rewrite Hrt. reflexivity.
Qed.

Lemma snapToGrid_idempotent_witness :
  let p := snapToGrid 100 70 64 32 in snapToGrid (Pt.x p) (Pt.y p) 64 32 = p.
Proof.
  apply snapToGrid_idempotent; reflexivity.
Defined.

End ExactClamp.

(** The grid extent of the specification's scenario: a 10 x 10 grid of
    64 x 32 tiles spans 640 x 320 pixels. *)
Lemma calculateGridDimensions_default :
  calculateGridDimensions 10%float 10%float 64%float 32%float
    = Size.mk 640%float 320%float.
Proof. vm_compute. reflexivity. Qed.

(** *** The order of binary64 numbers *)

Section FloatOrder.

Lemma SFcompare_antisym (v w : spec_float) (c : comparison) :
  SFcompare v w = Some c -> SFcompare w v = Some (CompOpp c).
Proof.
  destruct v as [s1 | s1 | | s1 m1 e1], w as [s2 | s2 | | s2 m2 e2]; cbn;
    try discriminate;
    try (intros [= <-]; try destruct s1; try destruct s2; reflexivity).
  intros [= <-]. f_equal.
  pose proof (Pos.compare_cont_antisym m1 m2 Eq) as Hm. cbn in Hm.
  destruct s1, s2; try reflexivity;
    rewrite (Z.compare_antisym e1 e2);
    destruct (e1 ?= e2)%Z; cbn; try reflexivity.
  - f_equal. symmetry. exact Hm.
  - symmetry. exact Hm.
Qed.

Lemma SFcompare_total (v w : spec_float) :
  v <> S754_nan -> w <> S754_nan -> exists c, SFcompare v w = Some c.
Proof.
  intros Hv Hw.
  destruct v as [s1 | s1 | | s1 m1 e1], w as [s2 | s2 | | s2 m2 e2];
    try congruence; cbn; eauto.
Qed.

Lemma not_nan_spec (a : float) : PrimFloat.is_nan a = false -> Prim2SF a <> S754_nan.
Proof.
  unfold PrimFloat.is_nan. rewrite FloatAxioms.eqb_spec. intros Ha Hn.
  rewrite Hn in Ha. cbn in Ha. discriminate.
Qed.

Lemma float_leb_not_nan_r (a b : float) :
  PrimFloat.leb a b = true -> PrimFloat.is_nan b = false.
Proof.
  rewrite FloatAxioms.leb_spec. unfold PrimFloat.is_nan. rewrite FloatAxioms.eqb_spec.
  unfold SFleb, SFeqb. intros Hle.
  destruct (SFcompare (Prim2SF a) (Prim2SF b)) as [c|] eqn:Hc; [|discriminate].
  destruct (Prim2SF b) as [s | s | | s m e] eqn:Hb; cbn.
  - reflexivity.
  - destruct s; reflexivity.
  - destruct (Prim2SF a); discriminate.
  - destruct s; rewrite Z.compare_refl, Pos.compare_cont_refl; reflexivity.
Qed.

Lemma float_ltb_leb (a b : float) :
  PrimFloat.ltb a b = true -> PrimFloat.leb a b = true.
Proof.
  rewrite FloatAxioms.ltb_spec, FloatAxioms.leb_spec. unfold SFltb, SFleb.
  destruct (SFcompare (Prim2SF a) (Prim2SF b)) as [[]|]; congruence.
Qed.

Lemma float_leb_refl (a : float) :
  PrimFloat.is_nan a = false -> PrimFloat.leb a a = true.
Proof.
  unfold PrimFloat.is_nan. rewrite FloatAxioms.eqb_spec, leb_spec. unfold SFeqb, SFleb.
  destruct (SFcompare (Prim2SF a) (Prim2SF a)) as [[]|]; cbn; congruence.
Qed.

Lemma float_not_ltb_leb (a b : float) :
  PrimFloat.is_nan a = false -> PrimFloat.is_nan b = false ->
  PrimFloat.ltb a b = false -> PrimFloat.leb b a = true.
Proof.
  intros Ha Hb. rewrite FloatAxioms.ltb_spec, FloatAxioms.leb_spec. unfold SFltb, SFleb.
  destruct (SFcompare_total (Prim2SF a) (Prim2SF b)) as [c Hc];
    try (apply not_nan_spec; assumption).
  rewrite Hc, (SFcompare_antisym _ _ _ Hc).
  destruct c; cbn; congruence.
Qed.

(** [Math.min(hi, v)] of two numbers is a number not above [hi]. *)
Lemma float_min_le (hi v : float) :
  PrimFloat.is_nan hi = false -> PrimFloat.is_nan v = false ->
  PrimFloat.is_nan (IEEE.min hi v) = false /\ PrimFloat.leb (IEEE.min hi v) hi = true.
Proof.
  intros Hhi Hv. unfold IEEE.min. rewrite Hhi, Hv. cbn.
  destruct (PrimFloat.ltb hi v) eqn:H1.
  - split; [assumption | apply float_leb_refl; assumption].
  - destruct (PrimFloat.ltb v hi) eqn:H2.
    + split; [assumption | apply float_ltb_leb; assumption].
    + destruct (IEEE.is_neg_zero hi).
      * split; [assumption | apply float_leb_refl; assumption].
      * split; [assumption | apply float_not_ltb_leb; assumption].
Qed.

(** The clamp [Math.max(0, Math.min(hi, v))] of a number [v] lies in
    [[0, hi]]. *)
Lemma float_clamp_in_range (hi v : float) :
  PrimFloat.leb 0 hi = true -> PrimFloat.is_nan v = false ->
  PrimFloat.leb 0 (IEEE.max 0 (IEEE.min hi v)) = true /\
  PrimFloat.leb (IEEE.max 0 (IEEE.min hi v)) hi = true.
Proof.
  intros Hhi Hv.
  destruct (float_min_le hi v (float_leb_not_nan_r _ _ Hhi) Hv) as [Hn Hle].
  unfold IEEE.max. rewrite Hn.
  change (PrimFloat.is_nan 0) with false. cbn [orb].
  destruct (PrimFloat.ltb 0 (IEEE.min hi v)) eqn:H1.
  - split; [apply float_ltb_leb; assumption | assumption].
  - change (IEEE.is_neg_zero 0) with false.
    destruct (PrimFloat.ltb (IEEE.min hi v) 0); split;
      solve [reflexivity | assumption].
Qed.

End FloatOrder.

Section DragFloat.
Local Open Scope float_scope.




End DragFloat.

(** ** History *)

Section HistoryFacts.
Context {E G : Type}.
Implicit Types (r s : Scene E G).

Lemma undo_at_first_entry s : historyIndex s = 0%Z -> undo s s = s.
Proof. intros Hi. unfold undo. rewrite Hi. reflexivity. Qed.

Lemma redo_at_last_entry s :
  historyIndex s = (Z.of_nat (length (history s)) - 1)%Z -> redo s s = s.
Proof. intros Hi. unfold redo. rewrite Hi, Z.ltb_irrefl. reflexivity. Qed.


End HistoryFacts.

(** ** Elements *)

Lemma toString_inj (n m : Z) : toString n = toString m -> n = m.
Proof.
  unfold toString. intros Heq.
  apply DecimalZ.to_int_inj.
  apply (f_equal NilEmpty.int_of_string) in Heq.
  rewrite !NilEmpty.isi in Heq. congruence.
Qed.

Section ElementFacts.
Context {num : Type} `{JsNumber num}.
Abbreviation scene := (Scene (Element.t num) (Size.t num)).
Implicit Types (r s : scene) (prev : list (Element.t num)).

Lemma map_absent_id prev (id : string) (updates : Updates num) :
  (forall e, e ∈ prev -> Element.id e <> id) ->
  map (fun element => if String.eqb (Element.id element) id
                      then merge element updates else element) prev = prev.
Proof.
  induction prev as [|e prev IH]; intros Habs; [reflexivity|]. cbn.
  destruct (String.eqb_spec (Element.id e) id) as [Heq|Hne].
  - exfalso. apply (Habs e); [left | assumption].
  - f_equal. apply IH. intros e' He'. apply Habs. right. assumption.
Qed.

Lemma filter_absent_id prev (id : string) :
  (forall e, e ∈ prev -> Element.id e <> id) ->
  List.filter (fun element => negb (String.eqb (Element.id element) id)) prev = prev.
Proof.
  induction prev as [|e prev IH]; intros Habs; [reflexivity|]. cbn.
  destruct (String.eqb_spec (Element.id e) id) as [Heq|Hne]; cbn.
  - exfalso. apply (Habs e); [left | assumption].
  - f_equal. apply IH. intros e' He'. apply Habs. right. assumption.
Qed.

(** C5, as amended: with an id that no element has, [updateElement] and
    [removeElement] raise no error and leave the elements as they were, but
    they are not no-ops: a snapshot of the collection is recorded as the last
    history entry, the cursor advances by one and the scene is marked
    modified; the scene name is kept, and the selection is kept except that
    [removeElement] clears it when the id is the selected one. *)
Theorem missing_id_still_records r s (id : string) (updates : Updates num) prev :
  elements s = Some prev ->
  (forall e, e ∈ prev -> Element.id e <> id) ->
  (exists s', updateElement r id updates s = Some s' /\
     elements s' = Some prev /\
     historyIndex s' = (historyIndex s + 1)%Z /\
     last (history s') = Some prev /\
     sceneModified s' = true /\
     sceneName s' = sceneName s /\
     selectedElementId s' = selectedElementId s) /\
  (exists s', removeElement r id s = Some s' /\
     elements s' = Some prev /\
     historyIndex s' = (historyIndex s + 1)%Z /\
     last (history s') = Some prev /\
     sceneModified s' = true /\
     sceneName s' = sceneName s /\
     selectedElementId s' =
       if bool_decide (selectedElementId r = Some id) then None
       else selectedElementId s).
Proof.
  intros He Habs. split.
  - unfold updateElement. rewrite He, (map_absent_id _ _ _ Habs).
    eexists. split; [reflexivity|]. cbn.
    repeat split; try reflexivity. apply last_snoc.
  - unfold removeElement. rewrite He, (filter_absent_id _ _ Habs).
    eexists. split; [reflexivity|].
    destruct (bool_decide (selectedElementId r = Some id)); cbn;
      repeat split; try reflexivity; apply last_snoc.
Qed.

End ElementFacts.

(** C5: on the freshly mounted scene, [updateElement] and [removeElement] with
    an unknown id do not return the state they were given: the cursor has
    moved from 0 to 1 and [sceneModified] is set. *)
Lemma missing_id_is_not_a_no_op :
  updateElement mount_scope "missing" no_updates untitled <> Some untitled /\
  removeElement mount_scope "missing" untitled <> Some untitled /\
  (historyIndex <$> updateElement mount_scope "missing" no_updates untitled) = Some 1%Z /\
  (sceneModified <$> removeElement mount_scope "missing" untitled) = Some true /\
  historyIndex untitled = 0%Z /\ sceneModified untitled = false.
Proof.
  repeat split; try reflexivity.
  - intros Heq. apply (f_equal (fmap historyIndex)) in Heq. discriminate Heq.
  - intros Heq. apply (f_equal (fmap historyIndex)) in Heq. discriminate Heq.
Qed.

Lemma missing_id_still_records_witness :
  exists s', updateElement mount_scope "missing" no_updates untitled = Some s' /\
     elements s' = Some [] /\
     historyIndex s' = (historyIndex untitled + 1)%Z /\
     last (history s') = Some [] /\
     sceneModified s' = true /\
     sceneName s' = sceneName untitled /\
     selectedElementId s' = selectedElementId untitled.
Proof.
  apply (missing_id_still_records mount_scope untitled "missing" no_updates []).
  - reflexivity.
  - intros e He. inversion He.
Defined.

Section ElementIds.
Context {num : Type} `{JsNumber num}.
Implicit Types (r s : Scene (Element.t num) (Size.t num)) (prev : list (Element.t num)).

Lemma addElement_appends r s s' (now : Z) (element : NewElement num) :
  addElement r now element s = Some s' ->
  exists prev, elements s = Some prev /\
               elements s' = Some (prev ++ [create now element]).
Proof.
  unfold addElement. destruct (elements s) as [prev|]; [|discriminate].
  intros [= <-]. exists prev. split; reflexivity.
Qed.

Lemma duplicateElement_appends r s s' (now : Z) (id : string) :
  duplicateElement r now id s = Some s' ->
  s' = s \/
  exists prev clone, elements s = Some prev /\
                     elements s' = Some (prev ++ [clone]) /\
                     Element.id clone = toString now.
Proof.
  unfold duplicateElement.
  destruct (elements r) as [elements_r|]; [|discriminate].
  destruct (List.find _ elements_r) as [original|]; [|intros [= <-]; left; reflexivity].
  destruct (elements s) as [prev|]; [|discriminate].
  intros [= <-]. right. eexists prev, _. repeat split; reflexivity.
Qed.

(** C3, as amended: the id that [addElement] assigns to an element passed
    without an id, and the id that [duplicateElement] assigns to the clone, is
    the decimal string of the clock reading at the call.  Two ids assigned one
    after the other are therefore equal exactly when the two readings are
    equal, and the ids of the collection stay pairwise distinct provided the
    new readings differ from each other and their strings from the ids
    already there. *)
Theorem assigned_id_is_clock_reading
    r1 r2 s s1 s2 (now1 now2 : Z) (e1 e2 : NewElement num) :
  new_id e1 = None -> new_id e2 = None ->
  addElement r1 now1 e1 s = Some s1 ->
  addElement r2 now2 e2 s1 = Some s2 ->
  (exists prev x y,
      elements s = Some prev /\ elements s2 = Some (prev ++ [x; y]) /\
      Element.id x = toString now1 /\ Element.id y = toString now2 /\
      (Element.id x = Element.id y <-> now1 = now2) /\
      (NoDup (Element.id <$> prev) ->
       toString now1 ∉ (Element.id <$> prev) ->
       toString now2 ∉ (Element.id <$> prev) ->
       now1 <> now2 ->
       NoDup (Element.id <$> (prev ++ [x; y])))) /\
  (forall r s0 s' (now : Z) (id : string),
      duplicateElement r now id s0 = Some s' ->
      s' = s0 \/
      exists prev clone, elements s0 = Some prev /\
                         elements s' = Some (prev ++ [clone]) /\
                         Element.id clone = toString now).
Proof.
  intros Hid1 Hid2 Ha1 Ha2. split; [|apply duplicateElement_appends].
  destruct (addElement_appends _ _ _ _ _ Ha1) as (prev & Hs & Hs1).
  destruct (addElement_appends _ _ _ _ _ Ha2) as (prev1 & Hs1' & Hs2).
  rewrite Hs1 in Hs1'. injection Hs1' as <-.
  exists prev, (create now1 e1), (create now2 e2).
  assert (Hx : Element.id (create now1 e1) = toString now1)
    by (unfold create; rewrite Hid1; reflexivity).
  assert (Hy : Element.id (create now2 e2) = toString now2)
    by (unfold create; rewrite Hid2; reflexivity).
  repeat split; try assumption.
  - rewrite Hs2, <- app_assoc. reflexivity.
  - rewrite Hx, Hy. apply toString_inj.
  - intros ->. rewrite Hx, Hy. reflexivity.
  - intros Hnd Hn1 Hn2 Hne.
    rewrite fmap_app.
    change (Element.id <$> [create now1 e1; create now2 e2])
      with [Element.id (create now1 e1); Element.id (create now2 e2)].
    rewrite Hx, Hy.
    apply NoDup_app. repeat split.
    + assumption.
    + intros i Hi Hin.
      apply elem_of_cons in Hin as [->|Hin]; [contradiction|].
      apply list_elem_of_singleton in Hin as ->. contradiction.
    + apply NoDup_cons. split; [|apply NoDup_singleton].
      intros Hin. apply list_elem_of_singleton in Hin.
      apply toString_inj in Hin. contradiction.
Qed.

(** C6, as amended: when the collection has an element with the given id,
    [duplicateElement] appends a clone of the first such element, at the
    original's position plus (1, 1) with no clamping and with the original's
    type, rotation and scale; the clone's id is the decimal string of the
    clock reading, which differs from the original's id unless the original's
    id is that very string; the clone's id becomes the selected id.  When no
    element has the id, the state is returned unchanged.  ([r] is the scope
    of the callback: its dependency list names [elements], so it holds the
    live collection.) *)
Theorem duplicateElement_clones r s (now : Z) (id : string) prev :
  elements r = Some prev -> elements s = Some prev ->
  match List.find (fun e => String.eqb (Element.id e) id) prev with
  | None => duplicateElement r now id s = Some s
  | Some original =>
      exists s' clone,
        duplicateElement r now id s = Some s' /\
        elements s' = Some (prev ++ [clone]) /\
        Element.position clone =
          Pt.mk (num_add (Pt.x (Element.position original)) one)
                (num_add (Pt.y (Element.position original)) one) /\
        Element.type clone = Element.type original /\
        Element.rotation clone = Element.rotation original /\
        Element.scale clone = Element.scale original /\
        Element.id original = id /\
        Element.id clone = toString now /\
        (Element.id clone <> Element.id original <-> toString now <> id) /\
        selectedElementId s' = Some (Element.id clone)
  end.
Proof.
  intros Hr Hs. unfold duplicateElement. rewrite Hr, Hs.
  destruct (List.find _ prev) as [original|] eqn:Hfind; [|reflexivity].
  apply find_some in Hfind as [_ Hid]. apply String.eqb_eq in Hid.
  eexists _, _. split; [reflexivity|]. cbn.
  repeat split; try reflexivity; try assumption.
  - rewrite Hid. auto.
  - rewrite Hid. auto.
Qed.

End ElementIds.

(** C3: two elements added at the same clock reading get the same id. *)
Lemma same_reading_same_id :
  exists s1 s2 x y,
    addElement mount_scope 1000 new_tree untitled = Some s1 /\
    addElement mount_scope 1000 new_tree s1 = Some s2 /\
    elements s2 = Some [x; y] /\
    Element.id x = Element.id y.
Proof.
  eexists _, _, _, _. repeat split; reflexivity.
Qed.

Lemma assigned_id_is_clock_reading_witness :
  exists s1 s2,
    addElement mount_scope 1000 new_tree untitled = Some s1 /\
    addElement mount_scope 1001 new_tree s1 = Some s2 /\
    exists prev x y,
      elements untitled = Some prev /\ elements s2 = Some (prev ++ [x; y]) /\
      Element.id x = toString 1000 /\ Element.id y = toString 1001 /\
      (Element.id x = Element.id y <-> 1000%Z = 1001%Z) /\
      (NoDup (Element.id <$> prev) ->
       toString 1000 ∉ (Element.id <$> prev) ->
       toString 1001 ∉ (Element.id <$> prev) ->
       1000%Z <> 1001%Z ->
       NoDup (Element.id <$> (prev ++ [x; y]))).
Proof.
  eexists _, _. split; [reflexivity|]. split; [reflexivity|].
  eapply (assigned_id_is_clock_reading mount_scope mount_scope untitled _ _
            1000 1001 new_tree new_tree); reflexivity.
Defined.

(** C6: duplicating, at clock reading 1000, the tree whose id is ["1000"]
    appends a clone with the same id. *)
Lemma clone_id_equals_original_id :
  elements one_tree = Some [tree "1000"] /\
  exists s' clone,
    duplicateElement one_tree 1000 "1000" one_tree = Some s' /\
    elements s' = Some [tree "1000"; clone] /\
    Element.id clone = Element.id (tree "1000").
Proof.
  split; [reflexivity|]. eexists _, _. repeat split; reflexivity.
Qed.

(** The scenario of the specification: a tree is added at (5, 5) and
    duplicated one millisecond later. *)
Lemma duplicateElement_clones_witness :
  exists s' clone,
    duplicateElement one_tree 1001 "1000" one_tree = Some s' /\
    elements s' = Some [tree "1000"; clone] /\
    Element.position clone = Pt.mk 6%float 6%float /\
    Element.id clone = "1001" /\
    Element.id clone <> Element.id (tree "1000") /\
    selectedElementId s' = Some (Element.id clone).
Proof.
  destruct (duplicateElement_clones one_tree one_tree 1001 "1000" [tree "1000"]
              eq_refl eq_refl)
    as (s' & clone & Hd & He & Hp & _ & _ & _ & _ & Hid & Hne & Hsel).
  exists s', clone. repeat split; try assumption.
  apply Hne. discriminate.
Defined.

(** ** History through the provider's callbacks *)

(** C2, evaluated: the mounted provider holds the initialised history (one
    entry, the empty collection, cursor 0).  After one [addElement] and one
    [undo] the live collection still holds the added element: [addElement] is
    the callback of the first render, whose [addToHistory] reads
    [historyIndex = -1] and so replaces the whole history by the new snapshot
    while the cursor moves to 1; [undo] then lands on that snapshot.  After
    two [addElement]s the single entry is at index 0 and the cursor at 2, and
    one [undo] stores [history[1]], which is [undefined]. *)
Theorem undo_after_add_keeps_the_element :
  shown (Some mounted) = Some (Some [], [[]], 0%Z) /\
  forall (now now' : Z) (element element' : NewElement float),
    shown (run [EvAddElement now element] mounted)
      = Some (Some [create now element], [[create now element]], 1%Z) /\
    shown (run [EvAddElement now element; EvUndo] mounted)
      = Some (Some [create now element], [[create now element]], 0%Z) /\
    shown (run [EvAddElement now element; EvUndo; EvUndo] mounted)
      = Some (Some [create now element], [[create now element]], 0%Z) /\
    shown (run [EvAddElement now element; EvAddElement now' element'; EvUndo] mounted)
      = Some (None, [[create now element; create now' element']], 1%Z).
Proof.
  split; [reflexivity|]. intros now now' element element'.
  repeat split; reflexivity.
Qed.

(** C7, evaluated on [remove_after_undo]: after the undo the live collection
    is S1 = [b; c]; the removal of [c] records S3 = [b] through the
    [removeElement] created when [c] was selected, at cursor 2, so
    [slice(0, 3)] keeps S2 = [c] and the cursor moves onto it.  A following
    [redo] moves the cursor to S3, and [undo] then [redo] makes S2 the live
    collection.  When the three recordings are made by [addElement] and
    [clearScene], callbacks of the first render, the undo after the second one
    does not land on S1 but stores [undefined]. *)
Theorem redo_after_record_reaches_discarded_state :
  shown (run (take 7 remove_after_undo) mounted)
    = Some (Some [tree "b"; tree "c"],
            [[tree "a"; tree "b"; tree "c"]; [tree "b"; tree "c"]; [tree "c"]], 1%Z) /\
  shown (run remove_after_undo mounted)
    = Some (Some [tree "b"],
            [[tree "a"; tree "b"; tree "c"]; [tree "b"; tree "c"]; [tree "c"];
             [tree "b"]], 2%Z) /\
  shown (run (remove_after_undo ++ [EvRedo]) mounted)
    = Some (Some [tree "b"],
            [[tree "a"; tree "b"; tree "c"]; [tree "b"; tree "c"]; [tree "c"];
             [tree "b"]], 3%Z) /\
  shown (run (remove_after_undo ++ [EvUndo; EvRedo]) mounted)
    = Some (Some [tree "c"],
            [[tree "a"; tree "b"; tree "c"]; [tree "b"; tree "c"]; [tree "c"];
             [tree "b"]], 2%Z) /\
  shown (run [EvAddElement 1000 new_tree; EvAddElement 1001 new_tree; EvUndo] mounted)
    = Some (None, [[tree "1000"; tree "1001"]], 1%Z) /\
  shown (run [EvAddElement 1000 new_tree; EvAddElement 1001 new_tree; EvUndo;
              EvClearScene; EvRedo] mounted)
    = Some (Some [], [[]], 2%Z).
Proof. repeat split; vm_compute; reflexivity. Qed.

(** ** Persistence *)

Lemma validateSceneData_true (sceneData : js) :
  validateSceneData sceneData = true <->
  present sceneData /\ exists l, get sceneData "elements" = JArr l.
Proof.
  unfold validateSceneData, present. split.
  - destruct sceneData as [| | b | n | str | l | fields]; cbn;
      try discriminate; try (destruct (truthy _); discriminate).
    + destruct b; discriminate.
    + destruct (negb _); discriminate.
    + destruct (negb _); discriminate.
    + destruct (lookup_field "elements" fields) as [| | b | n | str | l | fs];
        cbn; try discriminate.
      intros _. repeat split; try discriminate. exists l. reflexivity.
  - intros [[Hu Hn] [l Hl]].
    destruct sceneData as [| | b | n | str | l' | fields]; cbn in *;
      try congruence.
    rewrite Hl. reflexivity.
Qed.


(** C9, evaluated: the store is empty and in sync; the write of the index
    succeeds and the write of the blob throws.  [saveSceneToLocalStorage]
    catches the error and returns [false], and the store keeps the index entry
    for ["A"] without a blob for it. *)
Theorem failed_blob_write_leaves_index_entry :
  let st := mkStorage ∅ [true; false] in
  let result := saveSceneToLocalStorage "A" empty_scene_data "t1" "t2" st in
  in_sync st /\
  result.1 = inr false /\
  has_entry "A" result.2 /\
  ~ has_blob "A" result.2 /\
  ~ in_sync result.2.
Proof.
  cbv zeta.
  assert (Hentry : has_entry "A"
            (saveSceneToLocalStorage "A" empty_scene_data "t1" "t2"
               (mkStorage ∅ [true; false])).2).
  { exists (JObj [("name", JStr "A"); ("timestamp", JStr "t2"); ("preview", JNull)]).
    split; [|reflexivity]. vm_compute. left. }
  assert (Hblob : ~ has_blob "A"
            (saveSceneToLocalStorage "A" empty_scene_data "t1" "t2"
               (mkStorage ∅ [true; false])).2).
  { unfold has_blob. vm_compute. intros [v Hv]. discriminate Hv. }
  split; [|split; [|split; [|split]]].
  - intros name. split.
    + intros [v Hv]. cbn in Hv. rewrite lookup_empty in Hv. discriminate Hv.
    + intros (item & Hin & _). inversion Hin.
  - vm_compute. reflexivity.
  - exact Hentry.
  - exact Hblob.
  - intros Hsync. apply Hblob, Hsync, Hentry.
Qed.

(** ** History through callbacks of the current render

    What the history does when every recording callback belongs to the current
    render, as [addToHistory], [undo] and [redo] themselves do. *)

Section CurrentScope.
Context {E G : Type}.
Implicit Types (r s : Scene E G) (h : list (list E)).

Lemma js_slice0_take {A : Type} (l : list A) (n : nat) :
  js_slice0 l (Z.of_nat n) = take n l.
Proof.
  unfold js_slice0.
  destruct (Z.ltb_spec (Z.of_nat n) 0); [lia|].
  destruct (Z.min_spec (Z.of_nat n) (Z.of_nat (length l))) as [[Hlt ->]|[Hge ->]].
  - rewrite Nat2Z.id. reflexivity.
  - rewrite Nat2Z.id, !take_ge by lia. reflexivity.
Qed.

Lemma js_index_lookup {A : Type} (l : list A) (n : nat) :
  js_index l (Z.of_nat n) = l !! n.
Proof.
  unfold js_index. destruct (Z.ltb_spec (Z.of_nat n) 0); [lia|].
  rewrite Nat2Z.id. reflexivity.
Qed.

Lemma record_at_entry h (i : nat) s (newElements : list E) :
  at_entry h i s ->
  at_entry (take (S i) h ++ [newElements]) (S i) (record newElements s).
Proof.
  intros (Hh & Hi & He & Hlt). unfold at_entry, record, addToHistory. cbn.
  rewrite Hh, Hi.
  replace (Z.of_nat i + 1)%Z with (Z.of_nat (S i)) by lia.
  rewrite js_slice0_take.
  assert (Hlen : length (take (S i) h) = S i) by (rewrite length_take; lia).
  repeat split.
  - rewrite lookup_app_r by lia. rewrite Hlen, Nat.sub_diag. reflexivity.
  - rewrite length_app, Hlen. cbn. lia.
Qed.

Lemma undo_at_entry h (i : nat) s :
  at_entry h (S i) s -> at_entry h i (undo s s).
Proof.
  intros (Hh & Hi & He & Hlt). unfold at_entry, undo.
  rewrite Hi. rewrite Z.gtb_ltb. destruct (Z.ltb_spec 0 (Z.of_nat (S i))); [|lia]. cbn.
  rewrite Hh.
  replace (Z.of_nat (S i) - 1)%Z with (Z.of_nat i) by lia.
  rewrite js_index_lookup. repeat split; lia.
Qed.

Lemma redo_at_entry h (i : nat) s :
  at_entry h i s -> (S i < length h)%nat -> at_entry h (S i) (redo s s).
Proof.
  intros (Hh & Hi & He & Hlt) Hnext. unfold at_entry, redo.
  rewrite Hi, Hh.
  destruct (Z.ltb_spec (Z.of_nat i) (Z.of_nat (length h) - 1)); [|lia]. cbn.
  rewrite Hh.
  replace (Z.of_nat i + 1)%Z with (Z.of_nat (S i)) by lia.
  rewrite js_index_lookup. repeat split; lia.
Qed.

Lemma undo_iter_at_entry h (i k : nat) s :
  at_entry h (k + i) s -> at_entry h i (Nat.iter k (fun s => undo s s) s).
Proof.
  revert s. induction k as [|k IH]; intros s Hs; [exact Hs|].
  rewrite Nat.iter_succ_r. apply IH, undo_at_entry. exact Hs.
Qed.

Lemma redo_iter_at_entry h (i k : nat) s :
  at_entry h i s -> (k + i < length h)%nat ->
  at_entry h (k + i) (Nat.iter k (fun s => redo s s) s).
Proof.
  intros Hs. induction k as [|k IH]; intros Hlt; [exact Hs|].
  cbn [Nat.iter]. apply (redo_at_entry h (k + i)); [apply IH; lia | exact Hlt].
Qed.

Lemma record_all_at_entry h (snapshots : list (list E)) s :
  at_entry h (length h - 1) s ->
  at_entry (h ++ snapshots) (length (h ++ snapshots) - 1)
    (foldl (fun s newElements => record newElements s) s snapshots).
Proof.
  revert h s. induction snapshots as [|x snapshots IH]; intros h s Hs.
  - rewrite app_nil_r. exact Hs.
  - cbn [foldl]. pose proof Hs as (_ & _ & _ & Hlt).
    replace (h ++ x :: snapshots) with ((h ++ [x]) ++ snapshots)
      by (rewrite <- app_assoc; reflexivity).
    apply IH.
    pose proof (record_at_entry h (length h - 1) s x Hs) as Hr.
    replace (S (length h - 1)) with (length h) in Hr by lia.
    rewrite take_ge in Hr by lia.
    rewrite length_app. cbn. replace (length h + 1 - 1)%nat with (length h) by lia.
    exact Hr.
Qed.

End CurrentScope.

Section CurrentScopeClaims.
Context {E G : Type}.
Implicit Types (r s : Scene E G) (h : list (list E)).


(** Undo-branch discard, for callbacks of the current render: after
    [record(S1)], [record(S2)], [undo()] the live collection is [S1]; after a
    further [record(S3)] the history is the entries up to the starting cursor
    followed by [S1] and [S3], with the cursor on [S3], and [redo] changes
    nothing. *)
Theorem undo_branch_discard_in_current_scope h (i : nat) s (S1 S2 S3 : list E) :
  at_entry h i s ->
  let s1 := record S1 s in
  let s2 := record S2 s1 in
  let s3 := undo s2 s2 in
  let s4 := record S3 s3 in
  elements s3 = Some S1 /\
  at_entry (take (S i) h ++ [S1; S3]) (S (S i)) s4 /\
  elements s4 = Some S3 /\
  redo s4 s4 = s4.
Proof.
  intros Hs s1 s2 s3 s4.
  pose proof Hs as (_ & _ & _ & Hlt).
  assert (Hlen : length (take (S i) h) = S i) by (rewrite length_take; lia).
  assert (H1 : at_entry (take (S i) h ++ [S1]) (S i) s1)
    by (apply record_at_entry; exact Hs).
  assert (H2 : at_entry (take (S i) h ++ [S1; S2]) (S (S i)) s2).
  { pose proof (record_at_entry _ _ _ S2 H1) as H2.
    rewrite take_ge in H2 by (rewrite length_app, Hlen; cbn; lia).
    rewrite <- app_assoc in H2. exact H2. }
  assert (H3 : at_entry (take (S i) h ++ [S1; S2]) (S i) s3)
    by (apply undo_at_entry; exact H2).
  assert (H4 : at_entry (take (S i) h ++ [S1; S3]) (S (S i)) s4).
  { pose proof (record_at_entry _ _ _ S3 H3) as H4.
    replace (take (S (S i)) (take (S i) h ++ [S1; S2]))
      with (take (S i) h ++ [S1]) in H4.
    - rewrite <- app_assoc in H4. exact H4.
    - rewrite take_app, Hlen, take_take.
      replace (S (S i) `min` S i)%nat with (S i) by lia.
      replace (S (S i) - S i)%nat with 1%nat by lia. reflexivity. }
  split; [|split; [exact H4|split]].
  - destruct H3 as (_ & _ & He & _). rewrite He.
    rewrite lookup_app_r by lia. rewrite Hlen, Nat.sub_diag. reflexivity.
  - reflexivity.
  - apply redo_at_last_entry.
    destruct H4 as (Hh & Hi & _). rewrite Hh, Hi, length_app, Hlen. cbn. lia.
Qed.

End CurrentScopeClaims.


Lemma undo_branch_discard_in_current_scope_witness :
  let s := blank in
  let s3 := undo (record [2%nat] (record [1%nat] s)) (record [2%nat] (record [1%nat] s)) in
  let s4 := record [3%nat] s3 in
  elements s3 = Some [1%nat] /\ history s4 = [[]; [1%nat]; [3%nat]] /\ redo s4 s4 = s4.
Proof.
  cbv zeta.
  destruct (undo_branch_discard_in_current_scope [[]] 0 blank
              [1%nat] [2%nat] [3%nat])
    as (He & (Hh & _) & _ & Hr).
  - repeat split. cbn. lia.
  - split; [exact He | split; [exact Hh | exact Hr]].
Defined.


(** ** Named slots when every write succeeds, and on deletion *)

Lemma scene_key_inj (a b : string) : scene_key a = scene_key b -> a = b.
Proof. unfold scene_key. cbn. intros Heq. simplify_eq. reflexivity. Qed.

Lemma scene_key_not_index (name : string) : scene_key name <> scenes_index_key.
Proof. unfold scene_key, scenes_index_key. cbn. intros Heq. discriminate Heq. Qed.

Lemma name_is_true (name : string) (item : js) :
  name_is name item = inr true -> get item "name" = JStr name.
Proof.
  unfold name_is, get_strict.
  destruct item as [| | b | n | str | l | fields]; try discriminate; cbn;
    try discriminate.
  destruct (lookup_field "name" fields) as [| | b | n | str | l | fs];
    try discriminate.
  intros [= Heq]. apply String.eqb_eq in Heq. congruence.
Qed.

Lemma name_is_false (name : string) (item : js) :
  name_is name item = inr false -> get item "name" <> JStr name.
Proof.
  unfold name_is, get_strict.
  destruct item as [| | b | n | str | l | fields]; try discriminate; cbn;
    try discriminate.
  destruct (lookup_field "name" fields) as [| | b | n | str | l | fs];
    try discriminate.
  intros [= Heq] [= ->]. rewrite String.eqb_refl in Heq. discriminate Heq.
Qed.

Lemma findIndex_name_found (name : string) (scenesIndex : list js) (i : nat) :
  findIndex_name name scenesIndex = inr (Some i) ->
  exists item, scenesIndex !! i = Some item /\ get item "name" = JStr name.
Proof.
  revert i. induction scenesIndex as [|item rest IH]; intros i; cbn;
    [discriminate|].
  destruct (name_is name item) as [e|[|]] eqn:Hn; [discriminate| |].
  - intros [= <-]. exists item. split; [reflexivity | apply name_is_true, Hn].
  - destruct (findIndex_name name rest) as [e|[j|]]; try discriminate.
    intros [= <-]. cbn. apply IH. reflexivity.
Qed.

Lemma findIndex_name_absent (name : string) (scenesIndex : list js) :
  findIndex_name name scenesIndex = inr None ->
  forall item, item ∈ scenesIndex -> get item "name" <> JStr name.
Proof.
  induction scenesIndex as [|item rest IH]; cbn; intros Hf x Hx.
  - inversion Hx.
  - destruct (name_is name item) as [e|[|]] eqn:Hn; try discriminate.
    destruct (findIndex_name name rest) as [e|[j|]]; try discriminate.
    apply elem_of_cons in Hx as [->|Hx].
    + apply name_is_false, Hn.
    + apply IH; [reflexivity | exact Hx].
Qed.

Lemma filter_name_spec (name : string) (scenesIndex kept : list js) :
  filter_name name scenesIndex = inr kept ->
  forall item, item ∈ kept <-> item ∈ scenesIndex /\ get item "name" <> JStr name.
Proof.
  revert kept. induction scenesIndex as [|x rest IH]; cbn; intros kept.
  - intros [= <-] item. split; [intros Hin; inversion Hin | intros [Hin _]; inversion Hin].
  - destruct (name_is name x) as [e|b] eqn:Hn; [discriminate|].
    destruct (filter_name name rest) as [e|rest'] eqn:Hr; [discriminate|].
    intros [= <-] item. specialize (IH rest' eq_refl item).
    destruct b.
    + apply name_is_true in Hn. rewrite IH, elem_of_cons. split.
      * intros [Hin Hne]. split; [right; exact Hin | exact Hne].
      * intros [[->|Hin] Hne]; [contradiction | split; assumption].
    + apply name_is_false in Hn. rewrite !elem_of_cons, IH. split.
      * intros [->|[Hin Hne]]; [split; [left; reflexivity | exact Hn] |
                                split; [right; exact Hin | exact Hne]].
      * intros [[->|Hin] Hne]; [left; reflexivity | right; split; assumption].
Qed.

Lemma has_entry_items (name : string) (st st' : Storage) :
  items st' !! scenes_index_key = items st !! scenes_index_key ->
  has_entry name st' <-> has_entry name st.
Proof. unfold has_entry, index_entries. intros ->. reflexivity. Qed.

(** What a successful save has written. *)
Lemma save_succeeded (name : string) (sceneState : SceneData) (t1 t2 : string)
    (st st' : Storage) :
  saveSceneToLocalStorage name sceneState t1 t2 st = (inr true, st') ->
  let sceneInfo :=
    JObj [("name", JStr name); ("timestamp", JStr t2); ("preview", JNull)] in
  exists existingIndex scenesIndex',
    findIndex_name name (index_entries st) = inr existingIndex /\
    scenesIndex' = match existingIndex with
                   | Some i => <[i := sceneInfo]> (index_entries st)
                   | None => index_entries st ++ [sceneInfo]
                   end /\
    items st' = <[scene_key name := serializeScene sceneState t1]>
                  (<[scenes_index_key := JArr scenesIndex']> (items st)).
Proof.
  unfold saveSceneToLocalStorage, try_catch, bind, read_index, getItem, lift,
    setItem, ret, throw, index_entries.
  destruct st as [m w]. cbn.
  destruct (m !! scenes_index_key) as [[| | b | n | str | l | fields]|] eqn:Hm;
    cbn; try discriminate.
  - destruct (findIndex_name name l) as [e|ex] eqn:Hf; cbn; [discriminate|].
    destruct w as [|[|] [|[|] w]]; cbn; try discriminate;
      intros [= <-]; exists ex; eexists; repeat split; reflexivity.
  - destruct w as [|[|] [|[|] w]]; cbn; try discriminate;
      intros [= <-]; exists None; eexists; repeat split; reflexivity.
Qed.


(** What [deleteScene] leaves behind: nothing changed and [false], or the
    filtered index, no blob and [true]. *)
Lemma deleteScene_outcome (name : string) (st : Storage) :
  (items (deleteScene name st).2 = items st /\ (deleteScene name st).1 = inr false) \/
  (exists kept,
      filter_name name (index_entries st) = inr kept /\
      items (deleteScene name st).2 =
        delete (scene_key name) (<[scenes_index_key := JArr kept]> (items st)) /\
      (deleteScene name st).1 = inr true).
Proof.
  unfold deleteScene, try_catch, bind, read_index, getItem, lift, setItem,
    removeItem, ret, throw, index_entries.
  destruct st as [m w]. cbn.
  destruct (m !! scenes_index_key) as [[| | b | n | str | l | fields]|] eqn:Hm;
    cbn; try (left; split; reflexivity).
  - destruct (filter_name name l) as [e|kept] eqn:Hf; cbn;
      [left; split; reflexivity|].
    destruct w as [|[|] w]; cbn;
      solve [ left; split; reflexivity
            | right; exists kept; repeat split; reflexivity ].
  - destruct w as [|[|] w]; cbn;
      solve [ left; split; reflexivity
            | right; exists []; repeat split; reflexivity ].
Qed.


Lemma empty_store_in_sync (w : list bool) : in_sync (mkStorage ∅ w).
Proof.
  intros name. split.
  - intros [v Hv]. cbn in Hv. rewrite lookup_empty in Hv. discriminate Hv.
  - intros (item & Hin & _). inversion Hin.
Qed.



(** [record] is what the element callbacks do when their scope is the
    current render. *)
Lemma callbacks_in_current_scope {num : Type} `{JsNumber num}
    (s : Scene (Element.t num) (Size.t num)) (prev : list (Element.t num))
    (now : Z) (element : NewElement num) (id : string) (updates : Updates num) :
  elements s = Some prev ->
  addElement s now element s = Some (record (prev ++ [create now element]) s) /\
  updateElement s id updates s =
    Some (record (map (fun e => if String.eqb (Element.id e) id
                                then merge e updates else e) prev) s) /\
  removeElement s id s =
    Some (let s' := record (List.filter
                              (fun e => negb (String.eqb (Element.id e) id)) prev) s in
          if bool_decide (selectedElementId s = Some id)
          then setSelectedElementId None s' else s').
Proof.
  intros He. unfold addElement, updateElement, removeElement. rewrite He.
  repeat split; reflexivity.
Qed.

(** ** Layout of the grid, in exact arithmetic *)

Section ExactLayout.
Local Open Scope Q_scope.

Lemma Qfloor_fraction (q : Q) : 0 <= q - inject_Z (Qfloor q) < 1.
Proof.
  pose proof (Qfloor_le q) as Hle. pose proof (Qlt_floor q) as Hlt.
  rewrite inject_Z_plus in Hlt. change (inject_Z 1) with 1 in Hlt. lra.
Qed.

Lemma half_tile_nonneg (t : Q) : 0 <= t -> 0 <= t / 2.
Proof. intros Ht. apply Qle_shift_div_l; lra. Qed.

Lemma half_tile_pos (t : Q) : 0 < t -> 0 < t / 2.
Proof. intros Ht. apply Qlt_shift_div_l; lra. Qed.







Lemma round_of_integer (z : Z) : Exact.round (inject_Z z) = inject_Z z.
Proof.
  unfold Exact.round. f_equal.
  assert (Hlo : inject_Z z <= inject_Z z + (1 # 2)) by lra.
  assert (Hhi : inject_Z z + (1 # 2) < inject_Z (z + 1))
    by (rewrite inject_Z_plus; change (inject_Z 1) with 1; lra).
  apply Qfloor_resp_le in Hlo. rewrite Qfloor_Z in Hlo.
  pose proof (Qfloor_le (inject_Z z + (1 # 2))) as Hf.
  assert (Hlt : inject_Z (Qfloor (inject_Z z + (1 # 2))) < inject_Z (z + 1)) by lra.
  rewrite <- Zlt_Qlt in Hlt. lia.
Qed.

Lemma clamp_inside (hi v : Q) : 0 <= v -> v <= hi -> Qmax 0 (Qmin hi v) == v.
Proof.
  intros H0 H1. rewrite (Q.min_r hi v H1). apply Q.max_r. exact H0.
Qed.



End ExactLayout.

(** ** The name of an imported scene *)

Lemma is_extension_cons (c : ascii) (s : string) :
  is_extension (String c s) = plain_char c && (String.eqb s "" || is_extension s).
Proof. destruct s; cbn; [rewrite andb_true_r|]; reflexivity. Qed.

Lemma is_extension_spec (s : string) :
  is_extension s = true <->
  s <> EmptyString /\ Forall (fun c => plain_char c = true) (list_ascii_of_string s).
Proof.
  induction s as [|c s IH].
  - cbn. split; [discriminate | intros [Hne _]; contradiction].
  - rewrite is_extension_cons, andb_true_iff, orb_true_iff. cbn [list_ascii_of_string].
    rewrite Forall_cons. split.
    + intros [Hc Hs]. split; [discriminate|]. split; [exact Hc|].
      destruct Hs as [He|Hs].
      * apply String.eqb_eq in He as ->. constructor.
      * apply IH, Hs.
    + intros [_ [Hc Hs]]. split; [exact Hc|].
      destruct s as [|c' s']; [left; reflexivity|].
      right. apply IH. split; [discriminate | exact Hs].
Qed.

Lemma is_extension_with_dot (a b : string) : is_extension (a ++ String "." b) = false.
Proof.
  induction a as [|c a IH].
  - change (is_extension (String "." b) = false).
    rewrite is_extension_cons. reflexivity.
  - change (is_extension (String c (a ++ String "." b)) = false).
    rewrite is_extension_cons, IH, orb_false_r.
    destruct a; cbn; apply andb_false_r.
Qed.

Lemma strip_extension_last (base ext : string) :
  is_extension ext = true -> strip_extension (base ++ String "." ext) = base.
Proof.
  intros Hext. induction base as [|c base IH].
  - change (strip_extension (String "." ext) = "").
    cbn [strip_extension]. rewrite Hext. reflexivity.
  - change (strip_extension (String c (base ++ String "." ext)) = String c base).
    cbn [strip_extension].
    rewrite is_extension_with_dot, andb_false_r, IH. reflexivity.
Qed.

Lemma strip_extension_no_dot (s : string) :
  Forall (fun c => c <> "."%char) (list_ascii_of_string s) -> strip_extension s = s.
Proof.
  induction s as [|c s IH]; [reflexivity|]. cbn [list_ascii_of_string strip_extension].
  rewrite Forall_cons. intros [Hc Hs].
  destruct (Ascii.eqb_spec c "."); [contradiction|]. cbn. rewrite IH by exact Hs. reflexivity.
Qed.

Lemma strip_extension_prefix (s : string) : String.prefix (strip_extension s) s = true.
Proof.
  induction s as [|c s IH]; [reflexivity|]. cbn [strip_extension].
  destruct (Ascii.eqb c "." && is_extension s); [reflexivity|].
  cbn [String.prefix]. destruct (ascii_dec c c); [exact IH | contradiction].
Qed.

(** The name [importScene] gives to the scene is never empty.  What
    [replace(/\.[^/.]+$/, '')] leaves of a file name is a prefix of it; a name
    without a dot is left whole; and of a name [base.ext], with [ext] not
    empty and free of dots and slashes, it leaves [base], whatever dots and
    slashes [base] holds, the scene being called ['Imported Scene'] when
    [base] is empty. *)
Theorem imported_name_drops_last_extension (fileName : string) :
  imported_name fileName <> EmptyString /\
  String.prefix (strip_extension fileName) fileName = true /\
  (Forall (fun c => c <> "."%char) (list_ascii_of_string fileName) ->
   strip_extension fileName = fileName) /\
  (forall base ext : string,
     ext <> EmptyString ->
     Forall (fun c => c <> "/"%char /\ c <> "."%char) (list_ascii_of_string ext) ->
     fileName = (base ++ String "." ext)%string ->
     strip_extension fileName = base /\
     imported_name fileName = if String.eqb base "" then "Imported Scene" else base).
Proof.
  split; [|split; [|split]].
  - unfold imported_name. destruct (strip_extension fileName); discriminate.
  - apply strip_extension_prefix.
  - apply strip_extension_no_dot.
  - intros base ext Hne Hplain ->.
    assert (Hext : is_extension ext = true).
    { apply is_extension_spec. split; [exact Hne|].
      eapply Forall_impl; [exact Hplain|]. intros c [H1 H2]. unfold plain_char.
      destruct (Ascii.eqb_spec c "/"); [contradiction|].
      destruct (Ascii.eqb_spec c "."); [contradiction|]. reflexivity. }
    unfold imported_name. rewrite (strip_extension_last _ _ Hext).
    split; [reflexivity|]. destruct base; reflexivity.
Qed.

(** ** JSON texts and the gateway *)

Lemma JSON_image_object (fields : list (string * js)) :
  JSON_image (JObj fields) = JObj (image_fields fields []).
Proof. reflexivity. Qed.

Lemma lookup_image_fields (k : string) (fields : list (string * js)) (seen : list string) :
  lookup_field k (image_fields fields seen) =
    if existsb (String.eqb k) seen then JUndefined
    else field_image (lookup_field k fields).
Proof.
  revert seen. induction fields as [|[k' x] rest IH]; intros seen.
  - cbn. destruct (existsb _ seen); reflexivity.
  - cbn [image_fields lookup_field].
    destruct (String.eqb_spec k' k) as [->|Hne].
    + destruct (existsb (String.eqb k) seen) eqn:Hseen.
      * rewrite IH, Hseen. reflexivity.
      * assert (Hk : existsb (String.eqb k) (k :: seen) = true)
          by (cbn; rewrite String.eqb_refl; reflexivity).
        destruct x; cbn [lookup_field field_image];
          rewrite ?String.eqb_refl, ?IH, ?Hk; reflexivity.
    + assert (Hk : existsb (String.eqb k) (k' :: seen) = existsb (String.eqb k) seen).
      { cbn. destruct (String.eqb_spec k k'); [congruence | reflexivity]. }
      destruct (existsb (String.eqb k') seen).
      * apply IH.
      * destruct x; cbn [lookup_field];
          rewrite ?(proj2 (String.eqb_neq k' k) Hne), IH, Hk; reflexivity.
Qed.

Lemma get_JSON_image (v : js) (k : string) :
  get (JSON_image v) k = field_image (get v k).
Proof.
  destruct v as [| | b | n | s | l | fields]; try reflexivity.
  - unfold JSON_image, JSON_number. destruct (PrimFloat.classify n); reflexivity.
  - rewrite JSON_image_object. cbn [get]. rewrite lookup_image_fields. reflexivity.
Qed.

Lemma spread_object (v : js) : exists fields, spread v = JObj fields.
Proof. destruct v; cbn; eauto. Qed.

Lemma spread_JSON_image_spread (v : js) :
  spread (JSON_image (spread v)) = JSON_image (spread v).
Proof. destruct (spread_object v) as [fields ->]. reflexivity. Qed.

Lemma JSON_image_serializeScene (sceneState : SceneData) (timestamp : string) :
  JSON_image (serializeScene sceneState timestamp) =
    JObj [("version", JStr "1.0.0");
          ("timestamp", JStr timestamp);
          ("metadata", JSON_image (JObj [("gridSize", sd_gridSize sceneState);
                                         ("tileSize", sd_tileSize sceneState)]));
          ("elements", JArr (map JSON_image (map spread (sd_elements sceneState))))].
Proof. reflexivity. Qed.

Lemma deserializeScene_text (sceneState : SceneData) (timestamp : string) :
  deserializeScene (JSON_image (serializeScene sceneState timestamp)) =
    inr (mkSceneData (map (fun e => JSON_image (spread e)) (sd_elements sceneState))
           (field_image (sd_gridSize sceneState))
           (field_image (sd_tileSize sceneState))).
Proof.
  rewrite JSON_image_serializeScene.
  unfold deserializeScene. cbn -[JSON_image spread].
  rewrite !get_JSON_image. cbn [get lookup_field String.eqb Ascii.eqb Bool.eqb].
  f_equal. f_equal.
  rewrite !map_map. apply map_ext. intros e. apply spread_JSON_image_spread.
Qed.

(** What [serializeScene] builds is valid scene data whatever the scene is,
    and [deserializeScene] makes of it the scene it was built from: the grid
    and tile sizes as they were and a copy of each element.  Through a JSON
    text the scene comes back as its JSON image and, when the elements are
    objects that are their own image and so are the sizes, as the very scene
    that was serialised; the version and the timestamp play no part. *)
Theorem deserializeScene_serializeScene (sceneState : SceneData) (timestamp : string) :
  validateSceneData (serializeScene sceneState timestamp) = true /\
  deserializeScene (serializeScene sceneState timestamp) =
    inr (mkSceneData (map spread (sd_elements sceneState))
           (sd_gridSize sceneState) (sd_tileSize sceneState)) /\
  deserializeScene (JSON_image (serializeScene sceneState timestamp)) =
    inr (mkSceneData (map (fun e => JSON_image (spread e)) (sd_elements sceneState))
           (field_image (sd_gridSize sceneState))
           (field_image (sd_tileSize sceneState))) /\
  (Forall (fun e => JSON_image (spread e) = e) (sd_elements sceneState) ->
   field_image (sd_gridSize sceneState) = sd_gridSize sceneState ->
   field_image (sd_tileSize sceneState) = sd_tileSize sceneState ->
   deserializeScene (JSON_image (serializeScene sceneState timestamp)) = inr sceneState).
Proof.
  split; [reflexivity|]. split; [|split].
  - unfold deserializeScene. cbn -[spread]. f_equal. f_equal.
    rewrite map_map. apply map_ext. intros e.
    destruct (spread_object e) as [fields ->]. reflexivity.
  - apply deserializeScene_text.
  - intros Hels Hg Ht. rewrite deserializeScene_text, Hg, Ht.
    destruct sceneState as [els g t]. cbn [sd_elements] in *. f_equal. f_equal.
    clear Hg Ht.
    induction Hels as [|e els He _ IH]; [reflexivity|]. cbn [map]. rewrite He, IH. reflexivity.
Qed.

Lemma deserializeScene_serializeScene_witness :
  let sceneState := mkSceneData [tree_js "1000"] (size_js 10 10) (size_js 64 32) in
  deserializeScene (JSON_image (serializeScene sceneState "t")) = inr sceneState.
Proof.
  cbv zeta.
  destruct (deserializeScene_serializeScene
              (mkSceneData [tree_js "1000"] (size_js 10 10) (size_js 64 32)) "t")
    as (_ & _ & _ & Hback).
  apply Hback; [repeat constructor | reflexivity | reflexivity].
Defined.

Lemma loadSceneFromLocalStorage_outcome (name : string) (st : Storage) :
  loadSceneFromLocalStorage name st =
    (inr match items st !! scene_key name with
         | Some v => match deserializeScene (JSON_image v) with
                     | inr d => Some d
                     | inl _ => None
                     end
         | None => None
         end, st).
Proof.
  unfold loadSceneFromLocalStorage, try_catch, bind, getItem, lift, ret.
  destruct (items st !! scene_key name) as [v|]; [|reflexivity].
  assert (Hparse : v = JUndefined \/ JSON_parse v = inr (JSON_image v))
    by (destruct v; auto).
  destruct Hparse as [-> | ->]; [reflexivity|].
  destruct (deserializeScene (JSON_image v)); reflexivity.
Qed.

Lemma deserializeScene_validated (v : js) :
  (exists d, deserializeScene v = inr d) <-> validateSceneData v = true.
Proof.
  unfold deserializeScene. destruct (validateSceneData v) eqn:Hv; cbn.
  - apply validateSceneData_true in Hv as [_ [l Hl]]. rewrite Hl.
    split; [reflexivity | eauto].
  - split; [intros [d Hd]; discriminate | discriminate].
Qed.





Lemma findIndex_name_first (name : string) (scenesIndex : list js) (i : nat) :
  findIndex_name name scenesIndex = inr (Some i) ->
  exists before old after,
    scenesIndex = before ++ old :: after /\ length before = i /\
    get old "name" = JStr name /\
    forall item, item ∈ before -> get item "name" <> JStr name.
Proof.
  revert i. induction scenesIndex as [|x rest IH]; intros i; cbn; [discriminate|].
  destruct (name_is name x) as [e|[|]] eqn:Hn; [discriminate| |].
  - intros [= <-]. exists [], x, rest. repeat split.
    + apply name_is_true, Hn.
    + intros item Hin. inversion Hin.
  - destruct (findIndex_name name rest) as [e|[j|]]; try discriminate.
    intros [= <-]. destruct (IH j eq_refl) as (before & old & after & -> & <- & Hold & Hbefore).
    exists (x :: before), old, after. repeat split; [exact Hold|].
    intros item Hin. apply elem_of_cons in Hin as [-> | Hin].
    + apply name_is_false, Hn.
    + apply Hbefore, Hin.
Qed.



Lemma save_failed (name : string) (sceneState : SceneData) (t1 t2 : string)
    (st st' : Storage) :
  saveSceneToLocalStorage name sceneState t1 t2 st = (inr false, st') ->
  items st' = items st \/
  exists scenesIndex', items st' = <[scenes_index_key := JArr scenesIndex']> (items st).
Proof.
  unfold saveSceneToLocalStorage, try_catch, bind, read_index, getItem, lift,
    setItem, ret, throw.
  destruct st as [m w]. cbn.
  destruct (m !! scenes_index_key) as [[| | b | n | str | l | fields]|] eqn:Hm;
    cbn; try (intros [= <-]; left; reflexivity).
  - destruct (findIndex_name name l) as [e|ex] eqn:Hf; cbn;
      [intros [= <-]; left; reflexivity|].
    destruct w as [|[|] [|[|] w]]; cbn; try discriminate;
      intros [= <-]; solve [left; reflexivity | right; eexists; reflexivity].
  - destruct w as [|[|] [|[|] w]]; cbn; try discriminate;
      intros [= <-]; solve [left; reflexivity | right; eexists; reflexivity].
Qed.



(** ** Sessions of the provider *)

Lemma js_slice0_zero {A : Type} (l : list A) : js_slice0 l 0 = [].
Proof. unfold js_slice0. cbn. rewrite Z.min_l by lia. reflexivity. Qed.

Section FirstRenderFacts.
Context {num : Type} `{JsNumber num}.
Implicit Types (r s : Scene (Element.t num) (Size.t num)) (p : Provider (num := num)).

(** [addElement], [updateElement] and [clearScene] are created once, with an
    empty dependency list, so they record through the first render's
    [addToHistory], whose cursor is -1.  Whenever one of them runs, the history
    is cut down to the one snapshot it records while the cursor still
    advances by one; an undo right after it moves the cursor back and makes
    entry [historyIndex] of that one-entry history the live collection: the
    recorded snapshot itself when the cursor was 0, and [undefined]
    otherwise. *)
Theorem first_render_callbacks_forget_history (ev : Event (num := num)) p p' :
  first_render_callback ev = true ->
  (0 <= historyIndex (live p))%Z ->
  step ev p = Some p' ->
  exists newElements,
    elements (live p') = Some newElements /\
    history (live p') = [newElements] /\
    historyIndex (live p') = (historyIndex (live p) + 1)%Z /\
    exists p'',
      step EvUndo p' = Some p'' /\
      history (live p'') = [newElements] /\
      historyIndex (live p'') = historyIndex (live p) /\
      elements (live p'') =
        if (historyIndex (live p) =? 0)%Z then Some newElements else None.
Proof.
  intros Hev Hidx Hstep.
  assert (Hshape : exists newElements,
            live p' = mkScene (gridSize (live p)) (tileSize (live p)) (Some newElements)
                        [newElements] (historyIndex (live p) + 1)
                        (match ev with
                         | EvClearScene => None
                         | _ => selectedElementId (live p)
                         end)
                        (sceneName (live p)) true).
  { unfold step, dispatch in Hstep. destruct ev; try discriminate Hev.
    - unfold addElement in Hstep. destruct (elements (live p)) as [prev|]; [|discriminate].
      injection Hstep as <-. eexists.
      unfold commit, addToHistory. cbn -[js_slice0]. rewrite js_slice0_zero. reflexivity.
    - unfold updateElement in Hstep. destruct (elements (live p)) as [prev|]; [|discriminate].
      injection Hstep as <-. eexists.
      unfold commit, addToHistory. cbn -[js_slice0]. rewrite js_slice0_zero. reflexivity.
    - injection Hstep as <-. exists [].
      unfold commit, clearScene, addToHistory. cbn -[js_slice0].
      rewrite js_slice0_zero. reflexivity. }
  destruct Hshape as [newElements Hlive].
  exists newElements. rewrite Hlive. cbn. repeat split.
  eexists. split; [reflexivity|]. unfold undo. rewrite Hlive. cbn.
  destruct (Z.gtb_spec (historyIndex (live p) + 1) 0); [|lia]. cbn.
  replace (historyIndex (live p) + 1 - 1)%Z with (historyIndex (live p)) by lia.
  repeat split.
  unfold js_index. destruct (Z.ltb_spec (historyIndex (live p)) 0); [lia|].
  destruct (Z.eqb_spec (historyIndex (live p)) 0) as [->|Hne]; [reflexivity|].
  destruct (Z.to_nat (historyIndex (live p))) eqn:Hn; [lia|]. reflexivity.
Qed.

(** [createNewScene] empties the scene, clears the selection, names the scene
    "Untitled Scene", marks it unmodified and resets the view to zoom 1 at
    offset (0, 0); the grid and tile sizes are kept.  It does not start a new
    history: through the first render's [clearScene] the history becomes the
    one entry [[]] while the cursor advances by one, so that an undo right
    after it stores [undefined] as the collection unless the cursor was 0. *)
Theorem createNewScene_forgets_history_keeps_grid s :
  let s' := (createNewScene mount_scope s).1 in
  let view' := (createNewScene mount_scope s).2 in
  elements s' = Some [] /\ selectedElementId s' = None /\
  sceneName s' = "Untitled Scene" /\ sceneModified s' = false /\
  history s' = [[]] /\ historyIndex s' = (historyIndex s + 1)%Z /\
  gridSize s' = gridSize s /\ tileSize s' = tileSize s /\
  view' = mkView one (Pt.mk zero zero) /\
  ((0 <= historyIndex s)%Z ->
   elements (undo s' s') = if (historyIndex s =? 0)%Z then Some [] else None).
Proof.
  cbv zeta. unfold createNewScene, clearScene, addToHistory.
  cbn -[js_slice0 undo]. rewrite js_slice0_zero.
  repeat split. intros Hidx. unfold undo. cbn.
  destruct (Z.gtb_spec (historyIndex s + 1) 0); [|lia]. cbn.
  replace (historyIndex s + 1 - 1)%Z with (historyIndex s) by lia.
  unfold js_index. destruct (Z.ltb_spec (historyIndex s) 0); [lia|].
  destruct (Z.eqb_spec (historyIndex s) 0) as [->|Hne]; [reflexivity|].
  destruct (Z.to_nat (historyIndex s)) eqn:Hn; [lia | reflexivity].
Qed.

End FirstRenderFacts.

Lemma first_render_callbacks_forget_history_witness :
  exists p' newElements,
    step (EvAddElement 1000 new_tree) mounted = Some p' /\
    history (live p') = [newElements] /\ historyIndex (live p') = 1%Z.
Proof.
  eexists.
  assert (Hstep : step (EvAddElement 1000 new_tree) mounted = Some _)
    by (vm_compute; reflexivity).
  destruct (first_render_callbacks_forget_history
              (EvAddElement 1000 new_tree) mounted _ eq_refl ltac:(cbn; lia) Hstep)
    as (newElements & _ & Hh & Hi & _).
  exists newElements. split; [exact Hstep|]. split; [exact Hh | exact Hi].
Defined.

Lemma createNewScene_forgets_history_keeps_grid_witness :
  let s' := (createNewScene mount_scope one_tree).1 in
  history s' = [[]] /\ historyIndex s' = 2%Z /\ elements (undo s' s') = None.
Proof.
  cbv zeta.
  pose proof (createNewScene_forgets_history_keeps_grid one_tree) as Hn.
  cbv zeta in Hn. destruct Hn as (_ & _ & _ & _ & Hh & Hi & _ & _ & _ & Hu).
  split; [exact Hh|]. split; [exact Hi|]. apply Hu. vm_compute. discriminate.
Defined.

Section ProviderInvariant.
Context {num : Type} `{JsNumber num}.
Implicit Types (r s : Scene (Element.t num) (Size.t num)) (p : Provider (num := num)).

Lemma commit_inv p s' :
  (0 <= historyIndex s')%Z -> provider_inv (commit p s').
Proof.
  intros Hidx. unfold provider_inv, commit. cbn [live removeElement_scope].
  split; [|split].
  - unfold history_init_effect. destruct (history s') eqn:Hh; cbn; [discriminate|].
    rewrite Hh. discriminate.
  - unfold history_init_effect. destruct (history s'); cbn; [lia | exact Hidx].
  - destruct (bool_decide_reflect
                (selectedElementId s' = selectedElementId (removeElement_scope p)))
      as [Heq|Hne].
    + unfold history_init_effect. destruct (history s'); cbn; congruence.
    + unfold history_init_effect. destruct (history s'); reflexivity.
Qed.

Lemma dispatch_cursor (ev : Event (num := num)) p s' :
  (0 <= historyIndex (live p))%Z -> dispatch ev p = Some s' -> (0 <= historyIndex s')%Z.
Proof.
  intros Hidx. destruct ev; cbn [dispatch].
  - unfold addElement. destruct (elements (live p)); [|discriminate].
    intros [= <-]. cbn. lia.
  - unfold updateElement. destruct (elements (live p)); [|discriminate].
    intros [= <-]. cbn. lia.
  - unfold removeElement. destruct (elements (live p)); [|discriminate].
    intros [= <-]. destruct (bool_decide _); cbn; lia.
  - intros [= <-]. cbn. lia.
  - intros [= <-]. cbn. lia.
  - intros [= <-]. unfold undo.
    destruct (Z.gtb_spec (historyIndex (live p)) 0); cbn; lia.
  - intros [= <-]. unfold redo. destruct (_ <? _)%Z; cbn; lia.
  - intros [= <-]. destruct loaded as [[e [g|] [t|]]|]; cbn; lia.
  - unfold handleDragEnd. destruct (negb (over event)); [intros [= <-]; lia|].
    destruct (String.prefix _ _).
    + destruct (active_type event) as [[|c t]|]; try (intros [= <-]; lia).
      unfold addElement. destruct (elements (live p)); [|discriminate].
      intros [= <-]. cbn. lia.
    + destruct (active_element_id event) as [[|c t]|]; try (intros [= <-]; lia).
      unfold updateElement. destruct (elements (live p)); [|discriminate].
      intros [= <-]. cbn. lia.
Qed.

Lemma step_inv (ev : Event (num := num)) p p' :
  provider_inv p -> step ev p = Some p' -> provider_inv p'.
Proof.
  intros (_ & Hidx & _). unfold step.
  destruct (dispatch ev p) as [s'|] eqn:Hd; [|discriminate].
  intros [= <-]. apply commit_inv. eapply dispatch_cursor; eassumption.
Qed.

Lemma run_inv (evs : list (Event (num := num))) p p' :
  provider_inv p -> run evs p = Some p' -> provider_inv p'.
Proof.
  revert p. induction evs as [|ev evs IH]; intros p Hp; cbn.
  - intros [= <-]. exact Hp.
  - destruct (step ev p) as [p1|] eqn:Hs; [|discriminate].
    apply IH. eapply step_inv; eassumption.
Qed.

Lemma mounted_inv : provider_inv (mounted (num := num)).
Proof. unfold provider_inv. cbn. repeat split; [discriminate | lia]. Qed.

(** Whatever the user has done since the provider was mounted, the history
    holds at least one entry, the cursor is not negative, and [removeElement]
    reads the selection that is live: removing the selected element clears the
    selection and removing any other element leaves it as it is. *)
Theorem provider_keeps_cursor_and_selection (evs : list (Event (num := num))) p :
  run evs mounted = Some p ->
  history (live p) <> [] /\
  (0 <= historyIndex (live p))%Z /\
  forall id p',
    step (EvRemoveElement id) p = Some p' ->
    selectedElementId (live p') =
      if bool_decide (selectedElementId (live p) = Some id) then None
      else selectedElementId (live p).
Proof.
  intros Hrun. destruct (run_inv _ _ _ mounted_inv Hrun) as (Hh & Hidx & Hsel).
  split; [exact Hh|]. split; [exact Hidx|].
  intros id p'. unfold step, dispatch, removeElement.
  destruct (elements (live p)) as [prev|]; [|discriminate].
  intros [= <-]. rewrite Hsel. unfold commit. cbn [live].
  destruct (bool_decide (selectedElementId (live p) = Some id));
    unfold history_init_effect; cbn;
    destruct (js_slice0 _ _ ++ _); reflexivity.
Qed.

End ProviderInvariant.

Lemma provider_keeps_cursor_and_selection_witness :
  exists p, run remove_after_undo mounted = Some p /\
            history (live p) <> [] /\ (0 <= historyIndex (live p))%Z.
Proof.
  eexists.
  assert (Hrun : run remove_after_undo mounted = Some _) by (vm_compute; reflexivity).
  destruct (provider_keeps_cursor_and_selection _ _ Hrun) as (Hh & Hi & _).
  split; [exact Hrun|]. split; [exact Hh | exact Hi].
Defined.

(** *** Ids while the clock ticks *)

Section ClockIds.
Context {num : Type} `{JsNumber num}.
Implicit Types (r s : Scene (Element.t num) (Size.t num)) (p : Provider (num := num))
  (l : list (Element.t num)).

Lemma clock_ids_mono (t t' : Z) l : (t <= t')%Z -> clock_ids t l -> clock_ids t' l.
Proof.
  intros Ht [Hnd Hall]. split; [exact Hnd|].
  eapply Forall_impl; [exact Hall|]. intros i (n & Hn & ->). exists n. split; [lia | reflexivity].
Qed.

Lemma clock_ids_nil (t : Z) : clock_ids (num := num) t [].
Proof. split; [apply NoDup_nil_2 | constructor]. Qed.

Lemma clock_ids_snoc (t now : Z) l (e : Element.t num) :
  clock_ids t l -> (t < now)%Z -> Element.id e = toString now ->
  clock_ids now (l ++ [e]).
Proof.
  intros [Hnd Hall] Hlt Hid. split.
  - rewrite fmap_app. cbn [fmap list_fmap]. rewrite Hid.
    apply NoDup_app. split; [exact Hnd|]. split; [|apply NoDup_singleton].
    intros i Hi Hin. apply list_elem_of_singleton in Hin as ->.
    rewrite Forall_forall in Hall. destruct (Hall _ Hi) as (n & Hn & Heq).
    apply toString_inj in Heq. lia.
  - rewrite fmap_app. apply Forall_app. split.
    + eapply Forall_impl; [exact Hall|]. intros i (n & Hn & ->).
      exists n. split; [lia | reflexivity].
    + cbn [fmap list_fmap]. constructor; [|constructor].
      exists now. split; [lia | exact Hid].
Qed.

Lemma clock_ids_same_ids (t : Z) l l' :
  Element.id <$> l' = Element.id <$> l -> clock_ids t l -> clock_ids t l'.
Proof. unfold clock_ids. intros ->. trivial. Qed.

Lemma merge_keeps_id (e : Element.t num) (updates : Updates num) :
  upd_id updates = None -> Element.id (merge e updates) = Element.id e.
Proof. intros Hu. unfold merge. rewrite Hu. reflexivity. Qed.

Lemma update_keeps_ids l (id : string) (updates : Updates num) :
  upd_id updates = None ->
  Element.id <$> map (fun e => if String.eqb (Element.id e) id then merge e updates else e) l
    = Element.id <$> l.
Proof.
  intros Hu. induction l as [|e l IH]; [reflexivity|]. cbn [map fmap list_fmap].
  cbn [fmap list_fmap] in IH. rewrite IH. f_equal.
  destruct (String.eqb (Element.id e) id); [apply merge_keeps_id, Hu | reflexivity].
Qed.

Lemma clock_ids_filter (t : Z) l (f : Element.t num -> bool) :
  clock_ids t l -> clock_ids t (List.filter f l).
Proof.
  intros [Hnd Hall]. induction l as [|e l IH]; [split; assumption|].
  cbn [fmap list_fmap] in *. apply NoDup_cons in Hnd as [Hnotin Hnd].
  apply Forall_cons in Hall as [He Hall]. specialize (IH Hnd Hall) as [IH1 IH2].
  cbn [List.filter]. destruct (f e); [|split; assumption].
  split; cbn [fmap list_fmap].
  - apply NoDup_cons. split; [|exact IH1].
    intros Hin. apply Hnotin. apply list_elem_of_fmap in Hin as (x & Hx & Hin).
    apply list_elem_of_fmap. exists x. split; [exact Hx|].
    apply list_elem_of_In, filter_In in Hin as [Hin _]. apply list_elem_of_In, Hin.
  - constructor; assumption.
Qed.

Lemma ids_inv_mono (t t' : Z) s : (t <= t')%Z -> ids_inv t s -> ids_inv t' s.
Proof.
  intros Ht [He Hh]. split.
  - intros l Hl. eapply clock_ids_mono; [exact Ht | apply He, Hl].
  - eapply Forall_impl; [exact Hh|]. intros l. apply clock_ids_mono, Ht.
Qed.

Lemma ids_inv_record (t : Z) r s l :
  Forall (clock_ids t) (history s) -> clock_ids t l ->
  ids_inv t (setElements (Some l) (setSceneModified true (addToHistory r l s))).
Proof.
  intros Hh Hl. split.
  - intros l' [= <-]. exact Hl.
  - cbn. apply Forall_app. split; [|constructor; [exact Hl | constructor]].
    unfold js_slice0. apply Forall_take, Hh.
Qed.

Lemma ids_inv_index (t : Z) s (i : Z) s' :
  ids_inv t s -> elements s' = js_index (history s) i -> history s' = history s ->
  ids_inv t s'.
Proof.
  intros [_ Hh] He Hh'. split; [|rewrite Hh'; exact Hh].
  intros l Hl. rewrite He in Hl. unfold js_index in Hl.
  destruct (i <? 0)%Z; [discriminate|].
  rewrite Forall_forall in Hh. apply Hh. eapply list_elem_of_lookup_2, Hl.
Qed.

Lemma ids_inv_selection (t : Z) s (sel : option string) :
  ids_inv t s -> ids_inv t (setSelectedElementId sel s).
Proof. intros [He Hh]. split; assumption. Qed.

Lemma ids_inv_init (t : Z) s : ids_inv t s -> ids_inv t (history_init_effect s).
Proof.
  intros [He Hh]. unfold history_init_effect. destruct (history s) eqn:Hhs; cbn.
  - split; [exact He|]. cbn. constructor; [apply clock_ids_nil | constructor].
  - split; [exact He|]. rewrite Hhs. exact Hh.
Qed.

Lemma addElement_ids (t now : Z) r s s' (element : NewElement num) :
  new_id element = None -> (t < now)%Z -> ids_inv t s ->
  addElement r now element s = Some s' -> ids_inv now s'.
Proof.
  intros Hid Hlt Hinv. pose proof Hinv as [He Hh]. unfold addElement.
  destruct (elements s) as [prev|] eqn:Hprev; [|discriminate]. intros [= <-].
  apply ids_inv_record.
  - eapply Forall_impl; [exact Hh|]. intros l. apply clock_ids_mono. lia.
  - apply (clock_ids_snoc t); [apply He; reflexivity | exact Hlt |].
    unfold create. rewrite Hid. reflexivity.
Qed.

Lemma updateElement_ids (t : Z) r s s' (id : string) (updates : Updates num) :
  upd_id updates = None -> ids_inv t s ->
  updateElement r id updates s = Some s' -> ids_inv t s'.
Proof.
  intros Hid [He Hh]. unfold updateElement.
  destruct (elements s) as [prev|] eqn:Hprev; [|discriminate]. intros [= <-].
  apply ids_inv_record; [exact Hh|].
  eapply clock_ids_same_ids; [|apply He; reflexivity].
  apply update_keeps_ids, Hid.
Qed.

Lemma removeElement_ids (t : Z) r s s' (id : string) :
  ids_inv t s -> removeElement r id s = Some s' -> ids_inv t s'.
Proof.
  intros [He Hh]. unfold removeElement.
  destruct (elements s) as [prev|] eqn:Hprev; [|discriminate]. intros [= <-].
  assert (Hrec := ids_inv_record t r s _ Hh (clock_ids_filter t prev
     (fun element => negb (String.eqb (Element.id element) id)) (He _ eq_refl))).
  destruct (bool_decide _); [apply ids_inv_selection|]; exact Hrec.
Qed.

Lemma duplicateElement_ids (t now : Z) r s s' (id : string) :
  (t < now)%Z -> ids_inv t s ->
  duplicateElement r now id s = Some s' -> ids_inv now s'.
Proof.
  intros Hlt Hinv. pose proof Hinv as [He Hh]. unfold duplicateElement.
  destruct (elements r) as [elements_r|]; [|discriminate].
  destruct (List.find _ elements_r) as [original|].
  - destruct (elements s) as [prev|] eqn:Hprev; [|discriminate]. intros [= <-].
    apply ids_inv_selection, ids_inv_record.
    + eapply Forall_impl; [exact Hh|]. intros l. apply clock_ids_mono. lia.
    + apply (clock_ids_snoc t); [apply He; reflexivity | exact Hlt | reflexivity].
  - intros [= <-]. apply (ids_inv_mono t); [lia | exact Hinv].
Qed.

Lemma dispatch_ids (t : Z) (ev : Event (num := num)) (rest : list Event) p s' :
  ticking t (ev :: rest) -> ids_inv t (live p) -> dispatch ev p = Some s' ->
  ticking (clock_tick t ev) rest /\ ids_inv (clock_tick t ev) s'.
Proof.
  intros Htick Hinv. destruct ev; cbn [ticking dispatch clock_tick] in *.
  - destruct Htick as (Hid & Hlt & Hrest). intros Hd. split; [exact Hrest|].
    eapply addElement_ids; eassumption.
  - destruct Htick as (Hid & Hrest). intros Hd. split; [exact Hrest|].
    eapply updateElement_ids; eassumption.
  - intros Hd. split; [exact Htick|]. eapply removeElement_ids; eassumption.
  - intros [= <-]. split; [exact Htick|].
    unfold clearScene. apply ids_inv_selection.
    destruct Hinv as [_ Hh]. split.
    + intros l [= <-]. apply clock_ids_nil.
    + cbn. apply Forall_app. split; [unfold js_slice0; apply Forall_take, Hh|].
      constructor; [apply clock_ids_nil | constructor].
  - intros [= <-]. split; [exact Htick|]. apply ids_inv_selection, Hinv.
  - intros [= <-]. split; [exact Htick|]. unfold undo.
    destruct (_ >? _)%Z; [|exact Hinv].
    eapply (ids_inv_index t (live p)); [exact Hinv | reflexivity | reflexivity].
  - intros [= <-]. split; [exact Htick|]. unfold redo.
    destruct (_ <? _)%Z; [|exact Hinv].
    eapply (ids_inv_index t (live p)); [exact Hinv | reflexivity | reflexivity].
  - destruct Htick as (Hload & Hrest). intros [= <-]. split; [exact Hrest|].
    destruct loaded as [sceneState|]; [|exact Hinv].
    specialize (Hload sceneState eq_refl).
    destruct sceneState as [e [g|] [ts|]]; cbn; split;
      solve [ intros l [= <-]; exact Hload
            | constructor; [exact Hload | constructor] ].
  - destruct Htick as (Hlt & Hrest). intros Hd. split; [exact Hrest|].
    unfold handleDragEnd in Hd.
    destruct (negb (over event));
      [injection Hd as <-; apply (ids_inv_mono t); [lia | exact Hinv]|].
    destruct (String.prefix _ _).
    + destruct (active_type event) as [[|c ty]|];
        try (injection Hd as <-; apply (ids_inv_mono t); [lia | exact Hinv]).
      eapply addElement_ids; [| exact Hlt | exact Hinv | exact Hd]. reflexivity.
    + destruct (active_element_id event) as [[|c ty]|];
        try (injection Hd as <-; apply (ids_inv_mono t); [lia | exact Hinv]).
      apply (ids_inv_mono t); [lia|].
      eapply updateElement_ids; [| exact Hinv | exact Hd]. reflexivity.
Qed.

Lemma run_ids (t : Z) (evs : list (Event (num := num))) p p' :
  ticking t evs -> ids_inv t (live p) -> run evs p = Some p' ->
  ids_inv (clock_after t evs) (live p').
Proof.
  revert t p. induction evs as [|ev evs IH]; intros t p Htick Hinv.
  - intros [= <-]. exact Hinv.
  - cbn [run]. unfold step.
    destruct (dispatch ev p) as [s'|] eqn:Hd; [|discriminate].
    destruct (dispatch_ids t ev evs p s' Htick Hinv Hd) as (Htick' & Hinv').
    apply (IH (clock_tick t ev)); [exact Htick'|].
    cbn [commit live]. apply ids_inv_init, Hinv'.
Qed.

(** As long as every element is created at a later clock reading than the one
    before, no caller passes an id of its own and loaded scenes hold ids of
    earlier readings, the ids of the live collection are pairwise distinct
    decimal strings of past clock readings after any sequence of adds,
    updates, removals, clears, selections, undos, redos, loads and drops; and
    a [duplicateElement] at a later reading, from whatever render its callback
    dates, leaves them pairwise distinct. *)
Theorem ids_stay_distinct_while_the_clock_ticks
    (t : Z) (evs : list (Event (num := num))) p l :
  ticking t evs ->
  run evs mounted = Some p ->
  elements (live p) = Some l ->
  NoDup (Element.id <$> l) /\
  Forall (fun i => exists n, (n <= clock_after t evs)%Z /\ i = toString n) (Element.id <$> l) /\
  forall now id r s',
    (clock_after t evs < now)%Z ->
    duplicateElement r now id (live p) = Some s' ->
    exists l', elements s' = Some l' /\ NoDup (Element.id <$> l').
Proof.
  intros Htick Hrun Hl.
  assert (H0 : ids_inv t (live (mounted (num := num)))).
  { split; [intros l0 [= <-]; apply clock_ids_nil|].
    cbn. constructor; [apply clock_ids_nil | constructor]. }
  pose proof (run_ids t evs _ _ Htick H0 Hrun) as Hinv.
  destruct (proj1 Hinv l Hl) as [Hnd Hall].
  split; [exact Hnd|]. split; [exact Hall|].
  intros now id r s' Hlt Hdup.
  destruct (duplicateElement_ids _ now r _ s' id Hlt Hinv Hdup) as [He' _].
  destruct (elements s') as [l'|] eqn:Hl'.
  - exists l'. split; [reflexivity | apply (He' l' eq_refl)].
  - apply duplicateElement_appends in Hdup as [->|(prev & clone & _ & Hs' & _)]; congruence.
Qed.

End ClockIds.

Lemma ids_stay_distinct_while_the_clock_ticks_witness :
  exists p l,
    run [EvAddElement 1000 new_tree; EvDragEnd unit_view 1001 palette_drop;
         EvRemoveElement "1000"; EvAddElement 1002 new_tree] mounted = Some p /\
    elements (live p) = Some l /\ length l = 2%nat /\ NoDup (Element.id <$> l).
Proof.
  set (evs := [EvAddElement 1000 new_tree; EvDragEnd unit_view 1001 palette_drop;
               EvRemoveElement "1000"; EvAddElement 1002 new_tree]).
  assert (Htick : ticking 0 evs) by (cbn; repeat split; first [reflexivity | lia]).
  eexists. eexists.
  assert (Hrun : run evs mounted = Some _) by (vm_compute; reflexivity).
  destruct (ids_stay_distinct_while_the_clock_ticks 0 evs _ _ Htick Hrun eq_refl)
    as (Hnd & _).
  split; [exact Hrun|]. split; [reflexivity|]. split; [reflexivity | exact Hnd].
Defined.

(** ** Undo and redo through callbacks of the current render *)

Section UndoRedo.
Context {E G : Type}.
Implicit Types (s : Scene E G) (h : list (list E)).

(** With the cursor on an entry of the history that is the live collection,
    an undo followed by a redo, when there is an earlier entry, and a redo
    followed by an undo, when there is a later one, give back the collection,
    the cursor and the history as they were. *)
Theorem redo_reverts_undo h (i : nat) s :
  at_entry h i s ->
  ((0 < i)%nat ->
   let s' := redo (undo s s) (undo s s) in
   elements s' = elements s /\ historyIndex s' = historyIndex s /\ history s' = history s) /\
  ((S i < length h)%nat ->
   let s' := undo (redo s s) (redo s s) in
   elements s' = elements s /\ historyIndex s' = historyIndex s /\ history s' = history s).
Proof.
  intros Hs. pose proof Hs as (Hh & Hi & He & Hlt). split.
  - intros Hpos. cbv zeta. destruct i as [|j]; [lia|].
    pose proof (undo_at_entry h j s Hs) as Hu.
    pose proof (redo_at_entry h j _ Hu Hlt) as (Hh' & Hi' & He' & _).
    rewrite Hh', Hi', He', Hh, Hi, He. repeat split.
  - intros Hnext. cbv zeta.
    pose proof (redo_at_entry h i s Hs Hnext) as Hr.
    pose proof (undo_at_entry h i _ Hr) as (Hh' & Hi' & He' & _).
    rewrite Hh', Hi', He', Hh, Hi, He. repeat split.
Qed.

End UndoRedo.

Lemma redo_reverts_undo_witness :
  let s : Scene nat unit :=
    mkScene tt tt (Some [1%nat]) [[]; [1%nat]; [1%nat; 2%nat]] 1 None "Untitled Scene" true in
  elements (redo (undo s s) (undo s s)) = Some [1%nat] /\
  elements (undo (redo s s) (redo s s)) = Some [1%nat].
Proof.
  cbv zeta.
  destruct (redo_reverts_undo [[]; [1%nat]; [1%nat; 2%nat]] 1
              (mkScene tt tt (Some [1%nat]) [[]; [1%nat]; [1%nat; 2%nat]] 1 None
                 "Untitled Scene" true)) as [Hu Hr].
  - repeat split. cbn. lia.
  - split; [apply Hu | apply Hr]; cbn; lia.
Defined.

(** ** View controls *)

(** *** Sums and differences that are numbers *)

Section FloatNaN.

Lemma shr_1_nonneg (mrs : shr_record) : (0 <= shr_m mrs)%Z -> (0 <= shr_m (shr_1 mrs))%Z.
Proof.
  destruct mrs as [m r s]. cbn. destruct m as [|[p|p|]|[p|p|]]; cbn; lia.
Qed.

Lemma iter_pos_nonneg (n : positive) (mrs : shr_record) :
  (0 <= shr_m mrs)%Z -> (0 <= shr_m (SpecFloat.iter_pos shr_1 n mrs))%Z.
Proof.
  revert mrs. induction n as [n IH|n IH|]; intros mrs Hm; cbn.
  - apply IH, IH, shr_1_nonneg, Hm.
  - apply IH, IH, Hm.
  - apply shr_1_nonneg, Hm.
Qed.

Lemma shr_fexp_nonneg (m e : Z) (l : location) :
  (0 <= m)%Z -> (0 <= shr_m (shr_fexp prec emax m e l).1)%Z.
Proof.
  intros Hm. unfold shr_fexp, shr.
  assert (H0 : (0 <= shr_m (shr_record_of_loc m l))%Z)
    by (destruct l as [|[]]; exact Hm).
  destruct (_ - e)%Z; cbn [fst]; [exact H0 | apply iter_pos_nonneg, H0 | exact H0].
Qed.

Lemma round_nearest_even_nonneg (m : Z) (l : location) :
  (0 <= m)%Z -> (0 <= round_nearest_even m l)%Z.
Proof.
  intros Hm. destruct l as [|[]]; cbn; try lia. destruct (Z.even m); lia.
Qed.

Lemma binary_round_aux_not_nan (sx : bool) (mx ex : Z) (lx : location) :
  (0 <= mx)%Z -> binary_round_aux prec emax sx mx ex lx <> S754_nan.
Proof.
  intros Hm. unfold binary_round_aux.
  pose proof (shr_fexp_nonneg mx ex lx Hm) as H1.
  destruct (shr_fexp prec emax mx ex lx) as [mrs' e'] eqn:E1. cbn [fst] in H1.
  pose proof (shr_fexp_nonneg _ e' loc_Exact
                (round_nearest_even_nonneg (shr_m mrs') (loc_of_shr_record mrs') H1)) as H2.
  destruct (shr_fexp prec emax (round_nearest_even _ _) e' loc_Exact) as [mrs'' e''].
  cbn [fst] in H2. destruct (shr_m mrs''); [discriminate | | lia].
  destruct (_ <=? _)%Z; discriminate.
Qed.

Lemma binary_normalize_not_nan (m e : Z) (szero : bool) :
  binary_normalize prec emax m e szero <> S754_nan.
Proof.
  unfold binary_normalize, binary_round.
  destruct m as [|p|p]; [discriminate| |];
    destruct (shl_align p e _) as [mz ez]; apply binary_round_aux_not_nan; lia.
Qed.

Lemma SFadd_finite_not_nan (x : spec_float) (s : bool) (m : positive) (e : Z) :
  x <> S754_nan -> SFadd prec emax x (S754_finite s m e) <> S754_nan.
Proof.
  intros Hx. destruct x as [sx|sx| |sx mx ex]; cbn; try discriminate; try contradiction.
  apply binary_normalize_not_nan.
Qed.

Lemma is_nan_spec (a : float) : Prim2SF a <> S754_nan -> PrimFloat.is_nan a = false.
Proof.
  intros Ha. unfold PrimFloat.is_nan. rewrite FloatAxioms.eqb_spec. unfold SFeqb.
  destruct (Prim2SF a) as [s|s| |s m e]; cbn; try reflexivity.
  - destruct s; reflexivity.
  - contradiction.
  - destruct s; rewrite Z.compare_refl, Pos.compare_cont_refl; reflexivity.
Qed.

(** Adding a finite number to a number gives a number. *)
Lemma add_finite_not_nan (a c : float) (s : bool) (m : positive) (e : Z) :
  Prim2SF c = S754_finite s m e ->
  PrimFloat.is_nan a = false -> PrimFloat.is_nan (a + c) = false.
Proof.
  intros Hc Ha. apply is_nan_spec. rewrite add_spec, Hc.
  apply SFadd_finite_not_nan, not_nan_spec, Ha.
Qed.

Lemma sub_finite_not_nan (a c : float) (s : bool) (m : positive) (e : Z) :
  Prim2SF c = S754_finite s m e ->
  PrimFloat.is_nan a = false -> PrimFloat.is_nan (a - c) = false.
Proof.
  intros Hc Ha. apply is_nan_spec. rewrite sub_spec, Hc.
  pose proof (not_nan_spec a Ha) as Hx.
  destruct (Prim2SF a) as [sx|sx| |sx mx ex]; cbn; try discriminate; try contradiction.
  apply binary_normalize_not_nan.
Qed.

(** [Math.max(lo, v)] of two numbers is a number not below [lo]. *)
Lemma float_max_ge (lo v : float) :
  PrimFloat.is_nan lo = false -> PrimFloat.is_nan v = false ->
  PrimFloat.is_nan (IEEE.max lo v) = false /\ PrimFloat.leb lo (IEEE.max lo v) = true.
Proof.
  intros Hlo Hv. unfold IEEE.max. rewrite Hlo, Hv. cbn.
  destruct (PrimFloat.ltb lo v) eqn:H1.
  - split; [assumption | apply float_ltb_leb; assumption].
  - destruct (PrimFloat.ltb v lo) eqn:H2.
    + split; [assumption | apply float_leb_refl; assumption].
    + destruct (IEEE.is_neg_zero lo).
      * split; [assumption | apply float_not_ltb_leb; assumption].
      * split; [assumption | apply float_leb_refl; assumption].
Qed.

Lemma float_max_le (lo v hi : float) :
  PrimFloat.leb lo hi = true -> PrimFloat.leb v hi = true ->
  PrimFloat.is_nan lo = false -> PrimFloat.is_nan v = false ->
  PrimFloat.leb (IEEE.max lo v) hi = true.
Proof.
  intros Hlo Hv Hn1 Hn2. unfold IEEE.max. rewrite Hn1, Hn2. cbn.
  destruct (PrimFloat.ltb lo v); [assumption|].
  destruct (PrimFloat.ltb v lo); [assumption|].
  destruct (IEEE.is_neg_zero lo); assumption.
Qed.

End FloatNaN.

Section ViewFacts.
Local Open Scope float_scope.

(** Each zoom control clamps on its own side.  From any zoom that is a
    number, the zoom-in handler gives a number not above 2 and the zoom-out
    handler a number not below 0.5.  The wheel handler, with Ctrl or Meta
    held, gives a zoom between 0.5 and 2 whatever the zoom it starts from;
    without them it leaves the view as it was. *)
Theorem zoom_controls_stay_in_range (z : float) (view : View float) (e : WheelEvent) :
  PrimFloat.is_nan z = false ->
  PrimFloat.is_nan (zoom view) = false ->
  PrimFloat.leb (handleZoomIn z) 2 = true /\
  PrimFloat.leb lit_0_5 (handleZoomOut z) = true /\
  (wheel_ctrlKey e || wheel_metaKey e = true ->
   PrimFloat.leb lit_0_5 (zoom (handleWheel view e)) = true /\
   PrimFloat.leb (zoom (handleWheel view e)) 2 = true) /\
  (wheel_ctrlKey e || wheel_metaKey e = false -> handleWheel view e = view).
Proof.
  intros Hz Hview. split; [|split; [|split]].
  - unfold handleZoomIn. apply float_min_le; [reflexivity|].
    eapply add_finite_not_nan; [vm_compute; reflexivity | exact Hz].
  - unfold handleZoomOut. apply float_max_ge; [reflexivity|].
    eapply sub_finite_not_nan; [vm_compute; reflexivity | exact Hz].
  - intros Hkey. unfold handleWheel. rewrite Hkey. cbn [zoom].
    set (delta := if PrimFloat.ltb 0 (deltaY e) then - lit_0_05 else lit_0_05).
    assert (Hsum : PrimFloat.is_nan (zoom view + delta) = false).
    { unfold delta. destruct (PrimFloat.ltb 0 (deltaY e));
        (eapply add_finite_not_nan; [vm_compute; reflexivity | exact Hview]). }
    destruct (float_min_le 2 (zoom view + delta) eq_refl Hsum) as [Hn Hle].
    split.
    + apply float_max_ge; [reflexivity | exact Hn].
    + apply float_max_le; [reflexivity | exact Hle | reflexivity | exact Hn].
  - intros Hkey. unfold handleWheel. rewrite Hkey. reflexivity.
Qed.

Lemma zoom_controls_stay_in_range_witness :
  PrimFloat.leb (handleZoomIn 2) 2 = true /\
  PrimFloat.leb lit_0_5 (handleZoomOut lit_0_5) = true /\
  PrimFloat.leb (zoom (handleWheel unit_view (mkWheelEvent true false 1 0 0 0 0))) 2 = true.
Proof.
  destruct (zoom_controls_stay_in_range 2 unit_view
              (mkWheelEvent true false 1 0 0 0 0) eq_refl eq_refl) as (Hin & _ & Hw & _).
  destruct (zoom_controls_stay_in_range lit_0_5 unit_view
              (mkWheelEvent true false 1 0 0 0 0) eq_refl eq_refl) as (_ & Hout & _).
  split; [exact Hin|]. split; [exact Hout|]. apply Hw. reflexivity.
Defined.

Lemma newRotation_quarter_turn (r d : float) :
  r ∈ quarter_turns -> d = 90 \/ d = -90 -> newRotation r d ∈ quarter_turns.
Proof.
  intros Hr Hd. unfold quarter_turns in *.
  repeat (apply elem_of_cons in Hr as [-> | Hr]);
    [destruct Hd as [-> | ->]; vm_compute; set_solver ..|].
  inversion Hr.
Qed.

(** The rotation that [handleRotate] computes.  Starting from a rotation among
    0, 90, 180, 270, -0, -90, -180 and -270, any sequence of the two buttons
    (90 and -90 degrees) gives a rotation among these eight; and each of the
    eight is reached from 0 by some sequence: the remainder keeps the sign of
    the sum, so turning left from 0 gives -90, not 270. *)
Theorem rotation_stays_a_quarter_turn (ds : list float) (r : float) :
  r ∈ quarter_turns ->
  Forall (fun d => d = 90 \/ d = -90) ds ->
  foldl newRotation r ds ∈ quarter_turns /\
  forall q, q ∈ quarter_turns ->
    exists turns, Forall (fun d => d = 90 \/ d = -90) turns /\ foldl newRotation 0 turns = q.
Proof.
  intros Hr Hds. split.
  - revert r Hr. induction Hds as [|d ds Hd _ IH]; intros r Hr; [exact Hr|].
    cbn [foldl]. apply IH, newRotation_quarter_turn; assumption.
  - intros q Hq. unfold quarter_turns in Hq.
    repeat (apply elem_of_cons in Hq as [-> | Hq]); [..|inversion Hq].
    + exists []. split; [constructor | reflexivity].
    + exists [90]. split; [quarter_turn_buttons | vm_compute; reflexivity].
    + exists [90; 90]. split; [quarter_turn_buttons | vm_compute; reflexivity].
    + exists [90; 90; 90]. split; [quarter_turn_buttons | vm_compute; reflexivity].
    + exists [-90; -90; -90; -90].
      split; [quarter_turn_buttons | vm_compute; reflexivity].
    + exists [-90]. split; [quarter_turn_buttons | vm_compute; reflexivity].
    + exists [-90; -90]. split; [quarter_turn_buttons | vm_compute; reflexivity].
    + exists [-90; -90; -90]. split; [quarter_turn_buttons | vm_compute; reflexivity].
Qed.

Lemma rotation_stays_a_quarter_turn_witness :
  foldl newRotation 270 [90; 90; -90; -90; -90] ∈ quarter_turns.
Proof.
  apply (rotation_stays_a_quarter_turn [90; 90; -90; -90; -90] 270).
  - unfold quarter_turns. set_solver.
  - quarter_turn_buttons.
Defined.

End ViewFacts.

(** ** Panning the canvas *)

Section PanFacts.
Context {num : Type} `{JsNumber num}.
Local Open Scope js_scope.

(** Panning, each event being handled by the callback of the current render.
    After a press with the middle button or with Ctrl, Alt or Shift held, and
    any number of moves, the pan offset is the offset at the press plus the
    pointer's displacement from the press to the last move, computed from the
    press and not accumulated move by move; the zoom and the selection are as
    they were.  Once the button is released, moves no longer change the
    offset. *)
Theorem pan_follows_the_pointer (gridSize tileSize : Size.t num)
    (down : MouseEvent num) (moves : list (MouseEvent num)) (c : Canvas num) :
  (button down =? 1)%Z || ctrlKey down || altKey down || shiftKey down = true ->
  let dragged :=
    foldl (fun c e => handleMouseMove gridSize tileSize e c) (handleMouseDown down c) moves in
  offset (canvas_view dragged) =
    match last moves with
    | None => offset (canvas_view c)
    | Some e =>
        Pt.mk (Pt.x (offset (canvas_view c)) + (mouse_clientX e - mouse_clientX down))
              (Pt.y (offset (canvas_view c)) + (mouse_clientY e - mouse_clientY down))
    end /\
  zoom (canvas_view dragged) = zoom (canvas_view c) /\
  canvas_selection dragged = canvas_selection c /\
  forall e,
    offset (canvas_view (handleMouseMove gridSize tileSize e (handleMouseUp dragged)))
      = offset (canvas_view dragged).
Proof.
  intros Hdown. cbv zeta.
  set (start := handleMouseDown down c).
  assert (Hinv : forall moves c0,
            canvas_pan c0 = canvas_pan start ->
            zoom (canvas_view c0) = zoom (canvas_view c) ->
            canvas_selection c0 = canvas_selection c ->
            let d := foldl (fun c e => handleMouseMove gridSize tileSize e c) c0 moves in
            canvas_pan d = canvas_pan start /\
            zoom (canvas_view d) = zoom (canvas_view c) /\
            canvas_selection d = canvas_selection c /\
            offset (canvas_view d) =
              match last moves with
              | None => offset (canvas_view c0)
              | Some e =>
                  Pt.mk (Pt.x (offset (canvas_view c))
                         + (mouse_clientX e - mouse_clientX down))
                        (Pt.y (offset (canvas_view c))
                         + (mouse_clientY e - mouse_clientY down))
              end).
  { clear moves. intros moves. induction moves as [|e moves IH] using rev_ind;
      intros c0 Hp Hz Hs; cbv zeta.
    - repeat split; assumption.
    - rewrite foldl_app, last_snoc. cbn [foldl].
      destruct (IH c0 Hp Hz Hs) as (Hp' & Hz' & Hs' & _).
      set (d := foldl _ c0 moves) in *.
      unfold handleMouseMove. rewrite Hp'.
      unfold start, handleMouseDown. rewrite Hdown. cbn.
      repeat split; assumption. }
  destruct (Hinv moves start eq_refl) as (Hp & Hz & Hs & Ho).
  { unfold start, handleMouseDown. rewrite Hdown. reflexivity. }
  { unfold start, handleMouseDown. rewrite Hdown. reflexivity. }
  split; [|split; [exact Hz | split; [exact Hs|]]].
  - rewrite Ho. destruct (last moves); [reflexivity|].
    unfold start, handleMouseDown. rewrite Hdown. reflexivity.
  - intros e. reflexivity.
Qed.

End PanFacts.

Lemma pan_follows_the_pointer_witness :
  let size := Size.mk 10%float 10%float in
  let tile := Size.mk 64%float 32%float in
  let dragged :=
    foldl (fun c e => handleMouseMove size tile e c) (handleMouseDown middle_press still_canvas)
      [pointer_at 120 100; pointer_at 130 90] in
  offset (canvas_view dragged) = Pt.mk 30%float (-10)%float.
Proof.
  cbv zeta.
  pose proof (pan_follows_the_pointer (Size.mk 10%float 10%float) (Size.mk 64%float 32%float)
                middle_press [pointer_at 120 100; pointer_at 130 90] still_canvas eq_refl)
    as Hpan.
  cbv zeta in Hpan. destruct Hpan as (Ho & _).
  rewrite Ho. vm_compute. reflexivity.
Defined.
